(** * LRC lyrics parser ([src/js/lyrics-parser.js]) and the lyric line of
      the audio player ([src/js/audio-player.js]): model and properties

    The class [LyricsParser] is embedded as a record of its three fields and
    one function per method; [updateLyrics] and [loadLyrics] of [AudioPlayer]
    are embedded over the fields they use.  JavaScript strings are sequences
    of UTF-16 code units, numbers are IEEE-754 binary64 values (Rocq's
    primitive floats), the [metadata] object is a finite map, and the two
    regular expressions of [parseLRC] are run by a small backtracking
    matcher. *)

From Stdlib Require Import ZArith NArith List Bool Lia Ascii String.
From Stdlib Require Import Floats QArith Qabs.
From Stdlib Require Uint63.
From Stdlib Require Import Sorting.Sorted Sorting.Permutation.
From stdpp Require Import base option list gmap.

Local Open Scope Z_scope.
Local Open Scope list_scope.

(** ** JavaScript strings *)

Module JsString.

Local Open Scope N_scope.

(** A string is the list of its UTF-16 code units. *)
Definition char : Type := N.
Definition jsstring : Type := list char.

(** The code units of an ASCII literal. *)
Definition lit (s : String.string) : jsstring :=
  List.map N_of_ascii (list_ascii_of_string s).

Definition ch (a : ascii) : char := N_of_ascii a.

Definition in_range (lo hi c : char) : bool := (N.leb lo c && N.leb c hi)%bool.

(** [\d] *)
Definition is_digit (c : char) : bool := in_range 48 57 c.

(** [\w], i.e. [[A-Za-z0-9_]] *)
Definition is_word (c : char) : bool :=
  (in_range 97 122 c || in_range 65 90 c || in_range 48 57 c || N.eqb c 95)%bool.

(** LineTerminator: LF, CR, U+2028, U+2029 *)
Definition is_line_terminator (c : char) : bool :=
  (N.eqb c 10 || N.eqb c 13 || N.eqb c 8232 || N.eqb c 8233)%bool.

(** [.] (no [s] flag): anything but a line terminator *)
Definition is_dot (c : char) : bool := negb (is_line_terminator c).

(** WhiteSpace and LineTerminator, the characters [trim] strips:
    TAB, LF, VT, FF, CR, SP, NBSP, U+1680, U+2000..U+200A, U+2028, U+2029,
    U+202F, U+205F, U+3000, U+FEFF. *)
Definition is_space (c : char) : bool :=
  (in_range 9 13 c || N.eqb c 32 || N.eqb c 160 || N.eqb c 5760
   || in_range 8192 8202 c || N.eqb c 8232 || N.eqb c 8233 || N.eqb c 8239
   || N.eqb c 8287 || N.eqb c 12288 || N.eqb c 65279)%bool.

Fixpoint trimStart (s : jsstring) : jsstring :=
  match s with
  | c :: s' => if is_space c then trimStart s' else s
  | [] => []
  end.

Definition trimEnd (s : jsstring) : jsstring := rev (trimStart (rev s)).

(** [String.prototype.trim] *)
Definition trim (s : jsstring) : jsstring := trimEnd (trimStart s).

(** [s.split('\n')]: the pieces between line feeds; never an empty array. *)
Fixpoint split_lf (s : jsstring) : list jsstring :=
  match s with
  | [] => [[]]
  | c :: s' =>
      if N.eqb c 10 then [] :: split_lf s'
      else match split_lf s' with
           | l :: ls => (c :: l) :: ls
           | [] => [[c]]
           end
  end.

End JsString.

Import JsString.

(** ** Regular expressions

    The fragment used by [parseLRC]: a sequence of anchors, literal
    characters and capture groups holding one greedily quantified
    character class. *)

Module Regex.

Inductive cls := Word | Digit | Dot.

Definition cls_test (k : cls) : char -> bool :=
  match k with
  | Word => is_word
  | Digit => is_digit
  | Dot => is_dot
  end.

Inductive node :=
| Bol                                        (* ^ *)
| Eol                                        (* $ *)
| Chr (c : char)                             (* an escaped or plain literal *)
| Grp (k : cls) (lo : nat) (hi : option nat) (* (k{lo,hi}), greedy *).

Definition regex := list node.

(** Length of the longest prefix of [s] inside the class, at most [hi]. *)
Fixpoint run (p : char -> bool) (hi : option nat) (s : jsstring) : nat :=
  match hi with
  | Some O => O
  | _ =>
      match s with
      | c :: s' =>
          if p c then S (run p (option_map Nat.pred hi) s') else O
      | [] => O
      end
  end.

(** Greedy choice with backtracking: try [k], then [k-1], ... down to [lo]. *)
Fixpoint backtrack {A} (f : nat -> option A) (lo k : nat) : option A :=
  if (k <? lo)%nat then None
  else match f k with
       | Some r => Some r
       | None =>
           match k with
           | O => None
           | S k' => backtrack f lo k'
           end
       end.

(** Match [re] against a prefix of [s]; [bos] says whether [s] starts at
    the beginning of the subject.  The result lists the captures. *)
Fixpoint exec (re : regex) (bos : bool) (s : jsstring) : option (list jsstring) :=
  match re with
  | [] => Some []
  | Bol :: re' => if bos then exec re' bos s else None
  | Eol :: re' =>
      match s with
      | [] => exec re' bos s
      | _ :: _ => None
      end
  | Chr c :: re' =>
      match s with
      | c' :: s' => if N.eqb c c' then exec re' false s' else None
      | [] => None
      end
  | Grp k lo hi :: re' =>
      backtrack
        (fun n =>
           match exec re' (bos && Nat.eqb n 0) (skipn n s) with
           | Some caps => Some (firstn n s :: caps)
           | None => None
           end)
        lo (run (cls_test k) hi s)
  end.

(** [str.match(re)] for a regex without the [g] flag: the captures of the
    leftmost match, or [None] for [null]. *)
Fixpoint search_from (re : regex) (bos : bool) (s : jsstring) : option (list jsstring) :=
  match exec re bos s with
  | Some caps => Some caps
  | None =>
      match s with
      | [] => None
      | _ :: s' => search_from re false s'
      end
  end.

Definition search (re : regex) (s : jsstring) : option (list jsstring) :=
  search_from re true s.

End Regex.

Import Regex.

(** ** JavaScript numbers *)

Module JsNumber.

(** The Number nearest to a mathematical integer (ties to even). *)
Definition of_Z (z : Z) : float :=
  SF2Prim (binary_normalize prec emax z 0 false).

Definition digit_value (c : char) : Z := Z.of_N c - 48.

(** Value of a string of decimal digits, most significant first. *)
Definition digits_value (s : jsstring) : Z :=
  fold_left (fun acc c => 10 * acc + digit_value c) s 0.

Fixpoint take_digits (s : jsstring) : jsstring :=
  match s with
  | c :: s' => if is_digit c then c :: take_digits s' else []
  | [] => []
  end.

(** [parseInt(s, 10)]: leading white space is skipped, an optional sign is
    read, then the longest run of decimal digits; [NaN] without a digit. *)
Definition parseInt (s : jsstring) : float :=
  let s1 := trimStart s in
  let '(negative, s2) :=
    match s1 with
    | 45%N :: r => (true, r)   (* - *)
    | 43%N :: r => (false, r)  (* + *)
    | _ => (false, s1)
    end in
  match take_digits s2 with
  | [] => nan
  | ds =>
      let v := of_Z (digits_value ds) in
      if negative then PrimFloat.opp v else v
  end.

End JsNumber.

Import JsNumber.

(** ** The parser object *)

(** An entry of [this.lyrics]. *)
Record LyricLine := { time : float; text : jsstring }.

(** The object returned by [getCurrentLyric]. *)
Module Match.
Record t := { text : jsstring; time : float; index : Z; isNew : bool }.
End Match.
Abbreviation LyricMatch := Match.t.

(** The fields of a [LyricsParser] instance. *)
Record LyricsParser := {
  lyrics : list LyricLine;
  metadata : gmap jsstring jsstring;
  currentIndex : Z
}.

(** A method call either returns or throws. *)
Inductive completion (A : Type) :=
| Return (v : A)
| Throw.
Arguments Return {A} v.
Arguments Throw {A}.

(** [constructor()] *)
Definition new_parser : LyricsParser :=
  {| lyrics := []; metadata := ∅; currentIndex := -1 |}.

(** The metadata pattern, item by item: [^ \[ (\w+) : (.+) \] $] *)
Definition metadataRe : regex :=
  [Bol; Chr (ch "["); Grp Word 1 None; Chr (ch ":"); Grp Dot 1 None;
   Chr (ch "]"); Eol].

(** The timestamp pattern, item by item (it has no [^]):
    [\[ (\d{2}) : (\d{2}) \. (\d{2}) \] ( .* ) $] *)
Definition timeRe : regex :=
  [Chr (ch "["); Grp Digit 2 (Some 2%nat); Chr (ch ":");
   Grp Digit 2 (Some 2%nat); Chr (ch "."); Grp Digit 2 (Some 2%nat);
   Chr (ch "]"); Grp Dot 0 None; Eol].

(** [parseTimeToSeconds(minutes, seconds, centiseconds)] *)
Definition parseTimeToSeconds (minutes seconds centiseconds : jsstring) : float :=
  let min := parseInt minutes in
  let sec := parseInt seconds in
  let cs := parseInt centiseconds in
  (min * 60 + sec + cs / 100)%float.

(** [obj[key] = value] on an object created by [{}]: an own property is
    written, except that the inherited [__proto__] setter ignores a string. *)
Definition set_property (key value : jsstring) (obj : gmap jsstring jsstring)
  : gmap jsstring jsstring :=
  if bool_decide (key = lit "__proto__") then obj else <[key := value]> obj.

(** One iteration of the [for (const line of lines)] loop of [parseLRC]. *)
Definition parse_line (p : LyricsParser) (line : jsstring) : LyricsParser :=
  let trimmedLine := trim line in
  match trimmedLine with
  | [] => p
  | _ :: _ =>
      match search metadataRe trimmedLine with
      | Some caps =>
          let key := nth 0 caps [] in
          let value := nth 1 caps [] in
          {| lyrics := lyrics p;
             metadata := set_property key (trim value) (metadata p);
             currentIndex := currentIndex p |}
      | None =>
          match search timeRe trimmedLine with
          | Some caps =>
              let minutes := nth 0 caps [] in
              let seconds := nth 1 caps [] in
              let centiseconds := nth 2 caps [] in
              let text := nth 3 caps [] in
              let timeInSeconds := parseTimeToSeconds minutes seconds centiseconds in
              {| lyrics := lyrics p ++ [{| time := timeInSeconds; text := trim text |}];
                 metadata := metadata p;
                 currentIndex := currentIndex p |}
          | None => p
          end
      end
  end.

(** The comparator [(a, b) => a.time - b.time]. *)
Definition comparefn (a b : LyricLine) : float := (time a - time b)%float.

(** [Array.prototype.sort(comparefn)] is stable: an element moves in front
    of an earlier one only when the comparator is positive on the pair
    (earlier, later); a [NaN] verdict counts as zero.  With a consistent
    comparator the result is the one of insertion sort. *)
Fixpoint sort_insert (x : LyricLine) (sorted : list LyricLine) : list LyricLine :=
  match sorted with
  | [] => [x]
  | y :: rest =>
      if (0 <? comparefn y x)%float then x :: y :: rest
      else y :: sort_insert x rest
  end.

Definition sort (l : list LyricLine) : list LyricLine :=
  fold_left (fun sorted x => sort_insert x sorted) l [].

(** [parseLRC(lrcContent)] for a string argument. *)
Definition parseLRC (p : LyricsParser) (lrcContent : jsstring) : LyricsParser :=
  match lrcContent with
  | [] => p
  | _ :: _ =>
      let p0 := {| lyrics := []; metadata := ∅; currentIndex := -1 |} in
      let lines := split_lf lrcContent in
      let p1 := fold_left parse_line lines p0 in
      {| lyrics := sort (lyrics p1);
         metadata := metadata p1;
         currentIndex := currentIndex p1 |}
  end.

(** The scan of [getCurrentLyric]: [i] is the loop index, [targetIndex] the
    last index whose time was at most [currentTime]; the loop breaks at the
    first later line. *)
Fixpoint scan (rest : list LyricLine) (currentTime : float) (i targetIndex : Z) : Z :=
  match rest with
  | [] => targetIndex
  | l :: rest' =>
      if (time l <=? currentTime)%float then scan rest' currentTime (i + 1) i
      else targetIndex
  end.

(** [getCurrentLyric(currentTime)]: the returned value ([None] is [null])
    and the parser afterwards. *)
Definition getCurrentLyric (p : LyricsParser) (currentTime : float)
  : completion (option LyricMatch) * LyricsParser :=
  if (length (lyrics p) =? 0)%nat then (Return None, p)
  else
    let targetIndex := scan (lyrics p) currentTime 0 (-1) in
    if targetIndex >=? 0 then
      let indexChanged := negb (targetIndex =? currentIndex p) in
      let p' := {| lyrics := lyrics p; metadata := metadata p;
                   currentIndex := targetIndex |} in
      match lyrics p !! Z.to_nat targetIndex with
      | Some currentLyric =>
          (Return (Some {| Match.text := text currentLyric;
                           Match.time := time currentLyric;
                           Match.index := targetIndex;
                           Match.isNew := indexChanged |}), p')
      | None => (Throw, p')
      end
    else (Return None, p).

(** [clear()] *)
Definition clear (p : LyricsParser) : LyricsParser :=
  {| lyrics := []; metadata := ∅; currentIndex := -1 |}.

(** [hasLyrics()] *)
Definition hasLyrics (p : LyricsParser) : bool :=
  (0 <? length (lyrics p))%nat.

(** What the awaited [fetch(url)] and [response.text()] produce. *)
Inductive body_outcome :=
| BodyRejected
| BodyText (lrcContent : jsstring).

Inductive fetch_outcome :=
| FetchRejected
| Response (ok : bool) (status : Z) (statusText : jsstring) (body : body_outcome).

(** [loadFromURL(url)]: the value the promise resolves to, and the parser
    afterwards.  Every exception raised in the [try] block lands in the
    [catch] block. *)
Definition loadFromURL (p : LyricsParser) (url : jsstring) (fetched : fetch_outcome)
  : bool * LyricsParser :=
  match fetched with
  | FetchRejected => (false, clear p)
  | Response ok _ _ body =>
      if negb ok then (false, clear p)
      else match body with
           | BodyRejected => (false, clear p)
           | BodyText lrcContent =>
               let p' := parseLRC p lrcContent in
               (hasLyrics p', p')
           end
  end.

(** ** The lyric line of the audio player ([src/js/audio-player.js])

    The part of an [AudioPlayer] that [updateLyrics] and [loadLyrics] read
    and write: its parser, the [textContent] of the element
    [elements.currentLyric] ([None] when the page has no such element), the
    flag [isPlaying], and [audio.currentTime] ([None] when [this.audio] is
    [null]). *)
Record AudioPlayer := {
  lyricsParser : LyricsParser;
  currentLyric : option jsstring;
  isPlaying : bool;
  audio : option float
}.

(** The placeholder text: U+266A, a space, five Chinese characters and three dots. *)
Definition filler : jsstring :=
  [9834; 32; 38899; 20048; 25773; 25918; 20013; 46; 46; 46]%N.

Definition with_parser (a : AudioPlayer) (p : LyricsParser) : AudioPlayer :=
  {| lyricsParser := p; currentLyric := currentLyric a;
     isPlaying := isPlaying a; audio := audio a |}.

(** [this.elements.currentLyric.textContent = s] *)
Definition set_textContent (a : AudioPlayer) (s : jsstring) : AudioPlayer :=
  {| lyricsParser := lyricsParser a; currentLyric := Some s;
     isPlaying := isPlaying a; audio := audio a |}.

(** [updateLyrics()] *)
Definition updateLyrics (a : AudioPlayer) : completion unit * AudioPlayer :=
  match audio a, currentLyric a with
  | Some currentTime, Some _ =>
      let '(result, p) := getCurrentLyric (lyricsParser a) currentTime in
      let a1 := with_parser a p in
      match result with
      | Throw => (Throw, a1)
      | Return (Some lyricData) =>
          if Match.isNew lyricData then
            let lyricText :=
              match Match.text lyricData with
              | [] => filler
              | _ :: _ => Match.text lyricData
              end in
            (Return tt, set_textContent a1 lyricText)
          else (Return tt, a1)
      | Return None =>
          if hasLyrics p then (Return tt, set_textContent a1 filler)
          else (Return tt, a1)
      end
  | _, _ => (Return tt, a)
  end.

(** [if (this.elements.currentLyric) this.elements.currentLyric.textContent = filler] *)
Definition show_filler (a : AudioPlayer) : AudioPlayer :=
  match currentLyric a with
  | Some _ => set_textContent a filler
  | None => a
  end.

(** [loadLyrics(lyricsUrl)]; [None] is a [null] URL.  An exception raised
    in the [try] block is caught and the placeholder is shown. *)
Definition loadLyrics (a : AudioPlayer) (lyricsUrl : option jsstring)
    (fetched : fetch_outcome) : AudioPlayer :=
  match lyricsUrl with
  | None | Some [] => show_filler (with_parser a (clear (lyricsParser a)))
  | Some url =>
      let '(success, p) := loadFromURL (lyricsParser a) url fetched in
      let a1 := with_parser a p in
      if success then
        if isPlaying a1 then
          match updateLyrics a1 with
          | (Return _, a2) => a2
          | (Throw, a2) => show_filler a2
          end
        else a1
      else show_filler a1
  end.

(** The media clock moves: [audio.currentTime] becomes [t]. *)
Definition tick_to (a : AudioPlayer) (t : float) : AudioPlayer :=
  {| lyricsParser := lyricsParser a; currentLyric := currentLyric a;
     isPlaying := isPlaying a; audio := Some t |}.

(** * Properties *)

(** ** Comparison of binary64 values

    [SFcompare] orders the values that are not [NaN] lexicographically by a
    key. *)

Module SpecOrder.

Lemma compare_cont_Eq (p q : positive) : Pos.compare_cont Eq p q = Pos.compare p q.
Proof. reflexivity. Qed.

(** Rank of a non-NaN value in a lexicographic order. *)
Definition key (x : spec_float) : Z * Z * Z :=
  match x with
  | S754_zero _ => (0, 0, 0)
  | S754_infinity s => (if s then -2 else 2, 0, 0)
  | S754_nan => (0, 0, 0)
  | S754_finite s m e => if s then (-1, - e, - Zpos m) else (1, e, Zpos m)
  end.

Definition lex (a b : Z * Z * Z) : comparison :=
  let '(a1, a2, a3) := a in
  let '(b1, b2, b3) := b in
  match a1 ?= b1 with
  | Eq => match a2 ?= b2 with Eq => a3 ?= b3 | c => c end
  | c => c
  end.

Definition is_nan (x : spec_float) : bool :=
  match x with S754_nan => true | _ => false end.

Lemma SFcompare_key x y :
  SFcompare x y =
  if (is_nan x || is_nan y)%bool then None else Some (lex (key x) (key y)).
Proof.
  destruct x as [[]|[]| |[] mx ex], y as [[]|[]| |[] my ey]; try reflexivity;
    cbn [SFcompare is_nan orb key lex]; rewrite ?compare_cont_Eq.
  change (-1 ?= -1) with Eq. cbv iota.
  rewrite Z.compare_opp, (Z.compare_antisym ex ey).
  destruct (ex ?= ey); reflexivity.
Qed.

End SpecOrder.

(** ** Rounding never turns a non-zero value into zero *)

Module SpecRound.

Lemma digits2_pos_bounds (p : positive) :
  2 ^ (Zpos (digits2_pos p) - 1) <= Zpos p < 2 ^ Zpos (digits2_pos p).
Proof.
  induction p as [p IH|p IH|]; cbn [digits2_pos].
  - rewrite Pos2Z.inj_succ, (Pos2Z.inj_xI p).
    replace (Z.succ (Zpos (digits2_pos p)) - 1) with (Z.succ (Zpos (digits2_pos p) - 1)) by lia.
    rewrite !Z.pow_succ_r by lia.
    revert IH. generalize (2 ^ (Zpos (digits2_pos p) - 1)), (2 ^ Zpos (digits2_pos p)). intros; lia.
  - rewrite Pos2Z.inj_succ, (Pos2Z.inj_xO p).
    replace (Z.succ (Zpos (digits2_pos p)) - 1) with (Z.succ (Zpos (digits2_pos p) - 1)) by lia.
    rewrite !Z.pow_succ_r by lia.
    revert IH. generalize (2 ^ (Zpos (digits2_pos p) - 1)), (2 ^ Zpos (digits2_pos p)). intros; lia.
  - cbn. lia.
Qed.

Lemma shr_1_m (r : shr_record) :
  0 <= shr_m r -> shr_m (shr_1 r) = shr_m r / 2.
Proof.
  destruct r as [m r s]. cbn [shr_m]. intros Hm.
  rewrite <- Z.div2_div.
  destruct m as [|[p|p|]|p]; try reflexivity. lia.
Qed.

Lemma iter_pos_shr_1_m (n : positive) : forall r,
  0 <= shr_m r -> shr_m (SpecFloat.iter_pos shr_1 n r) = shr_m r / 2 ^ Zpos n.
Proof.
  induction n as [n IH|n IH|]; intros r Hr; cbn [SpecFloat.iter_pos].
  - assert (H1 : 0 <= shr_m (shr_1 r)) by (rewrite shr_1_m by assumption; apply Z.div_pos; lia).
    assert (H2 : 0 <= shr_m (SpecFloat.iter_pos shr_1 n (shr_1 r))).
    { rewrite IH by assumption. apply Z.div_pos; [assumption | apply Z.pow_pos_nonneg; lia]. }
    rewrite IH, IH, shr_1_m by assumption.
    assert (Hp : 0 < 2 ^ Zpos n) by (apply Z.pow_pos_nonneg; lia).
    rewrite !Z.div_div by lia.
    f_equal. rewrite (Pos2Z.inj_xI n).
    replace (2 * Zpos n + 1) with (1 + Zpos n + Zpos n) by lia.
    rewrite !Z.pow_add_r by lia. change (2 ^ 1) with 2. lia.
  - assert (H2 : 0 <= shr_m (SpecFloat.iter_pos shr_1 n r)).
    { rewrite IH by assumption. apply Z.div_pos; [assumption | apply Z.pow_pos_nonneg; lia]. }
    rewrite IH, IH by assumption.
    assert (Hp : 0 < 2 ^ Zpos n) by (apply Z.pow_pos_nonneg; lia).
    rewrite !Z.div_div by lia.
    f_equal. rewrite (Pos2Z.inj_xO n).
    replace (2 * Zpos n) with (Zpos n + Zpos n) by lia.
    rewrite !Z.pow_add_r by lia. lia.
  - rewrite shr_1_m by assumption. reflexivity.
Qed.

Lemma shr_record_of_loc_m m l : shr_m (shr_record_of_loc m l) = m.
Proof. destruct l as [|[]]; reflexivity. Qed.

Lemma shr_fexp_pos (m e : Z) (l : location) :
  1 <= m -> emin <= e ->
  1 <= shr_m (fst (shr_fexp prec emax m e l)) /\
  emin <= snd (shr_fexp prec emax m e l).
Proof.
  intros Hm He. unfold shr_fexp, shr.
  destruct m as [|q|q]; try lia. cbn [Zdigits2].
  pose proof (digits2_pos_bounds q) as Hd.
  set (d := Zpos (digits2_pos q)) in *.
  unfold fexp, SpecFloat.emin, prec, emax in *.
  destruct (Z.max (d + e - 53) (3 - 1024 - 53) - e) as [|p|p] eqn:Hn;
    cbn [fst snd]; rewrite ?shr_record_of_loc_m; try (split; lia).
  rewrite iter_pos_shr_1_m by (rewrite shr_record_of_loc_m; lia).
  rewrite shr_record_of_loc_m.
  assert (Hp : Zpos p = d - 53) by lia.
  split; [|lia].
  apply Z.div_le_lower_bound; [apply Z.pow_pos_nonneg; lia|].
  rewrite Z.mul_1_r.
  transitivity (2 ^ (d - 1)); [|lia].
  apply Z.pow_le_mono_r; lia.
Qed.

Lemma round_nearest_even_ge m l : m <= round_nearest_even m l.
Proof. destruct l as [|[]]; cbn; try destruct (Z.even m); lia. Qed.

(** The sign of a rounded non-zero value is the sign that was asked for. *)
Definition has_sign (s : bool) (x : spec_float) : Prop :=
  match x with
  | S754_finite s' _ _ | S754_infinity s' => s' = s
  | _ => False
  end.

Lemma binary_round_aux_sign s m e l :
  1 <= m -> emin <= e ->
  has_sign s (binary_round_aux prec emax s m e l).
Proof.
  intros Hm He. unfold binary_round_aux.
  pose proof (shr_fexp_pos m e l Hm He) as [H1 H2].
  destruct (shr_fexp prec emax m e l) as [r1 e1]. cbn [fst snd] in *.
  pose proof (round_nearest_even_ge (shr_m r1) (loc_of_shr_record r1)) as Hr.
  pose proof (shr_fexp_pos (round_nearest_even (shr_m r1) (loc_of_shr_record r1)) e1
                loc_Exact ltac:(lia) H2) as [H3 H4].
  destruct (shr_fexp prec emax _ e1 loc_Exact) as [r2 e2]. cbn [fst snd] in *.
  destruct (shr_m r2) as [|p|p]; try lia.
  destruct (e2 <=? emax - prec); reflexivity.
Qed.

Lemma binary_round_sign s m e :
  emin <= e -> has_sign s (binary_round prec emax s m e).
Proof.
  intros He. unfold binary_round, shl_align.
  destruct (fexp prec emax (Zpos (digits2_pos m) + e) - e) as [|p|p] eqn:Hn;
    apply binary_round_aux_sign; try lia.
  unfold fexp in *. lia.
Qed.

Lemma iter_xO_value (m d : positive) : Zpos (Pos.iter xO m d) = Zpos m * 2 ^ Zpos d.
Proof.
  induction d as [|d IH] using Pos.peano_ind.
  - cbn. lia.
  - rewrite Pos.iter_succ, (Pos2Z.inj_xO (Pos.iter xO m d)), IH, Pos2Z.inj_succ, Z.pow_succ_r by lia. lia.
Qed.

Lemma shl_align_value (m : positive) (e e' : Z) :
  e' <= e -> Zpos (fst (shl_align m e e')) = Zpos m * 2 ^ (e - e').
Proof.
  intros H. unfold shl_align.
  destruct (e' - e) as [|p|p] eqn:Hn; cbn [fst]; try lia.
  - replace (e - e') with 0 by lia. lia.
  - rewrite iter_xO_value. f_equal. f_equal. lia.
Qed.

(** Non-negative finite values: [+0] and the positive finite numbers. *)
Definition nonneg (x : spec_float) : bool :=
  match x with
  | S754_zero false | S754_finite false _ _ => true
  | _ => false
  end.

Lemma valid_finite_bounds s m e :
  valid_binary (S754_finite s m e) = true ->
  emin <= e /\ Zpos m < 2 ^ 53 /\ (emin < e -> 2 ^ 52 <= Zpos m).
Proof.
  cbn [valid_binary]. unfold bounded, canonical_mantissa, fexp, SpecFloat.emin, prec, emax.
  intros H. apply andb_prop in H as [H _]. apply Z.eqb_eq in H.
  pose proof (digits2_pos_bounds m) as Hd.
  set (d := Zpos (digits2_pos m)) in *.
  assert (d <= 53) by lia.
  split; [lia|]. split.
  - apply Z.lt_le_trans with (2 ^ d); [lia|]. apply Z.pow_le_mono_r; lia.
  - intros He. assert (d = 53) by lia. subst d. rewrite H1 in Hd.
    change (53 - 1) with 52 in Hd. lia.
Qed.

Lemma aligned_compare mx ex my ey :
  valid_binary (S754_finite false mx ex) = true ->
  valid_binary (S754_finite false my ey) = true ->
  (Zpos (fst (shl_align mx ex (Z.min ex ey))) ?= Zpos (fst (shl_align my ey (Z.min ex ey))))
  = match ex ?= ey with Eq => (mx ?= my)%positive | c => c end.
Proof.
  intros Hx Hy.
  apply valid_finite_bounds in Hx as (Hx1 & Hx2 & Hx3).
  apply valid_finite_bounds in Hy as (Hy1 & Hy2 & Hy3).
  rewrite !shl_align_value by lia.
  destruct (Z.compare_spec ex ey) as [E|E|E].
  - subst. rewrite Z.min_id, Z.sub_diag. cbn [Z.pow]. rewrite !Z.mul_1_r. reflexivity.
  - rewrite Z.min_l, Z.sub_diag by lia. cbn [Z.pow]. rewrite Z.mul_1_r.
    apply Z.compare_lt_iff.
    assert (2 ^ 1 <= 2 ^ (ey - ex)) by (apply Z.pow_le_mono_r; lia).
    change (2 ^ 1) with 2 in *. specialize (Hy3 ltac:(lia)). nia.
  - rewrite Z.min_r, Z.sub_diag by lia. cbn [Z.pow]. rewrite Z.mul_1_r.
    apply Z.compare_gt_iff.
    assert (2 ^ 1 <= 2 ^ (ex - ey)) by (apply Z.pow_le_mono_r; lia).
    change (2 ^ 1) with 2 in *. specialize (Hx3 ltac:(lia)). nia.
Qed.

Lemma SFltb_zero_sign s x : has_sign s x -> SFltb (S754_zero false) x = negb s.
Proof. destruct x as [| | |]; cbn; try tauto; intros ->; destruct s; reflexivity. Qed.

(** A difference of non-negative finite numbers is positive exactly when
    the subtrahend is the smaller one: rounding never reaches zero. *)
Lemma SFsub_positive x y :
  valid_binary x = true -> valid_binary y = true ->
  nonneg x = true -> nonneg y = true ->
  SFltb (S754_zero false) (SFsub prec emax x y) = SFltb y x.
Proof.
  intros Vx Vy Nx Ny.
  destruct x as [[]|[]| |[] mx ex]; try discriminate;
    destruct y as [[]|[]| |[] my ey]; try discriminate; try reflexivity.
  cbn [SFsub cond_Zopp]. unfold SFltb at 2. cbn [SFcompare].
  pose proof (aligned_compare mx ex my ey Vx Vy) as Hc.
  pose proof (valid_finite_bounds _ _ _ Vx) as (Hx1 & _).
  pose proof (valid_finite_bounds _ _ _ Vy) as (Hy1 & _).
  set (A := Zpos (fst (shl_align mx ex (Z.min ex ey)))) in *.
  set (B := Zpos (fst (shl_align my ey (Z.min ex ey)))) in *.
  assert (Hyx : match ey ?= ex with Eq => Pos.compare_cont Eq my mx | c => c end
                = CompOpp (A ?= B)).
  { rewrite Hc, (Z.compare_antisym ex ey).
    destruct (ex ?= ey); cbn; try reflexivity.
    apply Pos.compare_antisym. }
  rewrite Hyx. unfold binary_normalize.
  destruct (Z.compare_spec A B) as [E|E|E]; cbn [CompOpp].
  - replace (A - B) with 0 by lia. reflexivity.
  - destruct (A - B) as [|p|p] eqn:Hd; try lia.
    rewrite (SFltb_zero_sign true); [reflexivity|].
    apply binary_round_sign. lia.
  - destruct (A - B) as [|p|p] eqn:Hd; try lia.
    rewrite (SFltb_zero_sign false); [reflexivity|].
    apply binary_round_sign. lia.
Qed.

End SpecRound.

Import SpecOrder SpecRound.

(** ** Order facts on primitive floats *)

Module FloatOrder.

(** [+0] and the positive finite numbers. *)
Definition good (x : float) : bool :=
  match classify x with
  | PZero | PNormal | PSubn => true
  | _ => false
  end.

Definition lt3 (a b : Z * Z * Z) : Prop :=
  a.1.1 < b.1.1 \/ (a.1.1 = b.1.1 /\ (a.1.2 < b.1.2 \/ (a.1.2 = b.1.2 /\ a.2 < b.2))).

Lemma lex_cases a b :
  (lex a b = Lt /\ lt3 a b) \/ (lex a b = Eq /\ a = b) \/ (lex a b = Gt /\ lt3 b a).
Proof.
  destruct a as [[a1 a2] a3], b as [[b1 b2] b3]; unfold lt3; cbn.
  destruct (Z.compare_spec a1 b1), (Z.compare_spec a2 b2), (Z.compare_spec a3 b3);
    subst; auto; try (left; split; [reflexivity|lia]); try (right; right; split; [reflexivity|lia]).
Qed.

Definition fnan (x : float) : bool := SpecOrder.is_nan (Prim2SF x).
Definition fkey (x : float) : Z * Z * Z := key (Prim2SF x).

Lemma compare_key x y :
  SFcompare (Prim2SF x) (Prim2SF y) =
  if (fnan x || fnan y)%bool then None else Some (lex (fkey x) (fkey y)).
Proof. apply SFcompare_key. Qed.

Lemma ltb_key x y :
  PrimFloat.ltb x y = true <-> fnan x = false /\ fnan y = false /\ lt3 (fkey x) (fkey y).
Proof.
  rewrite FloatAxioms.ltb_spec. unfold SFltb. rewrite compare_key.
  destruct (fnan x), (fnan y); cbn; try (split; [discriminate | intros (?&?&?); discriminate]).
  destruct (lex_cases (fkey x) (fkey y)) as [[-> H]|[[-> H]|[-> H]]];
    (split; [try discriminate; intros _; auto | intros (_ & _ & H'); try reflexivity]).
  - rewrite H in H'. unfold lt3 in H'. lia.
  - unfold lt3 in *. lia.
Qed.

Lemma leb_key x y :
  PrimFloat.leb x y = true <->
  fnan x = false /\ fnan y = false /\ (lt3 (fkey x) (fkey y) \/ fkey x = fkey y).
Proof.
  rewrite FloatAxioms.leb_spec. unfold SFleb. rewrite compare_key.
  destruct (fnan x), (fnan y); cbn; try (split; [discriminate | intros (?&?&?); discriminate]).
  destruct (lex_cases (fkey x) (fkey y)) as [[-> H]|[[-> H]|[-> H]]];
    (split; [try discriminate; intros _; auto | intros (_ & _ & H'); try reflexivity]).
  destruct H' as [H'|H']; [unfold lt3 in *; lia | rewrite H' in H; unfold lt3 in H; lia].
Qed.

Lemma eqb_key x y :
  PrimFloat.eqb x y = true <-> fnan x = false /\ fnan y = false /\ fkey x = fkey y.
Proof.
  rewrite FloatAxioms.eqb_spec. unfold SFeqb. rewrite compare_key.
  destruct (fnan x), (fnan y); cbn; try (split; [discriminate | intros (?&?&?); discriminate]).
  destruct (lex_cases (fkey x) (fkey y)) as [[-> H]|[[-> H]|[-> H]]];
    (split; [try discriminate; intros _; auto | intros (_ & _ & H'); try reflexivity]);
    rewrite H' in H; unfold lt3 in H; lia.
Qed.

Ltac order_prep :=
  repeat match goal with
  | H : PrimFloat.ltb _ _ = true |- _ => apply ltb_key in H; destruct H as (? & ? & ?)
  | H : PrimFloat.leb _ _ = true |- _ => apply leb_key in H; destruct H as (? & ? & ?)
  | H : PrimFloat.eqb _ _ = true |- _ => apply eqb_key in H; destruct H as (? & ? & ?)
  | H : PrimFloat.ltb _ _ = false |- _ => apply not_true_iff_false in H; rewrite ltb_key in H
  | H : PrimFloat.leb _ _ = false |- _ => apply not_true_iff_false in H; rewrite leb_key in H
  | H : PrimFloat.eqb _ _ = false |- _ => apply not_true_iff_false in H; rewrite eqb_key in H
  | |- PrimFloat.ltb _ _ = true => apply ltb_key
  | |- PrimFloat.leb _ _ = true => apply leb_key
  | |- PrimFloat.eqb _ _ = true => apply eqb_key
  | |- PrimFloat.ltb _ _ = false => apply not_true_iff_false; rewrite ltb_key
  | |- PrimFloat.leb _ _ = false => apply not_true_iff_false; rewrite leb_key
  | |- PrimFloat.eqb _ _ = false => apply not_true_iff_false; rewrite eqb_key
  end.

Ltac order_close :=
  repeat match goal with
  | H : context [fkey ?x] |- _ =>
      let k := fresh "k" in let E := fresh "E" in
      remember (fkey x) as k eqn:E in *; clear E; destruct k as [[? ?] ?]
  | |- context [fkey ?x] =>
      let k := fresh "k" in let E := fresh "E" in
      remember (fkey x) as k eqn:E in *; clear E; destruct k as [[? ?] ?]
  end;
  unfold lt3 in *; cbn [fst snd] in *;
  intuition (repeat match goal with
             | H : (_, _, _) = (_, _, _) |- _ => injection H as ? ? ?
             end; try congruence; try lia; try (f_equal; lia)).

Lemma leb_trans x y z :
  PrimFloat.leb x y = true -> PrimFloat.leb y z = true -> PrimFloat.leb x z = true.
Proof. intros. order_prep. order_close. Qed.

Lemma ltb_not_leb x y :
  PrimFloat.ltb x y = true -> PrimFloat.leb y x = false.
Proof. intros. order_prep. order_close. Qed.

Lemma ltb_leb x y :
  PrimFloat.ltb x y = true -> PrimFloat.leb x y = true.
Proof. intros. order_prep. order_close. Qed.

Lemma leb_not_ltb x y :
  PrimFloat.leb x y = true -> PrimFloat.ltb y x = false.
Proof. intros. order_prep. order_close. Qed.

Lemma ltb_false_leb x y :
  fnan x = false -> fnan y = false ->
  PrimFloat.ltb y x = false -> PrimFloat.leb x y = true.
Proof.
  intros Hx Hy H. order_prep.
  destruct (lex_cases (fkey x) (fkey y)) as [[_ L]|[[_ L]|[_ L]]]; auto.
  exfalso. apply H. auto.
Qed.

Lemma eqb_ltb_leb_neq f x y z :
  PrimFloat.eqb x f = true -> PrimFloat.ltb x y = true ->
  PrimFloat.leb y z = true -> PrimFloat.eqb z f = false.
Proof. intros. order_prep. order_close. Qed.

Lemma leb_antisym_eqb x y :
  PrimFloat.leb x y = true -> PrimFloat.leb y x = true -> PrimFloat.eqb x y = true.
Proof. intros. order_prep. order_close. Qed.

Lemma good_spec x :
  good x = true ->
  valid_binary (Prim2SF x) = true /\ nonneg (Prim2SF x) = true.
Proof.
  unfold good. rewrite classify_spec. intros H. split; [apply Prim2SF_valid|].
  unfold SF64classify, SFclassify in H.
  destruct (Prim2SF x) as [[]|[]| |[] m e]; try discriminate; try reflexivity.
  destruct (Z.pos (digits2_pos m) =? prec); discriminate.
Qed.

Lemma good_not_nan x : good x = true -> fnan x = false.
Proof.
  intros H. apply good_spec in H as [_ H]. unfold fnan.
  destruct (Prim2SF x) as [[]|[]| |[] m e]; try discriminate; reflexivity.
Qed.

(** On non-negative finite numbers the sign of [x - y] decides [y < x]. *)
Lemma sub_positive x y :
  good x = true -> good y = true ->
  PrimFloat.ltb 0 (x - y) = PrimFloat.ltb y x.
Proof.
  intros Hx Hy.
  apply good_spec in Hx as [Vx Nx]. apply good_spec in Hy as [Vy Ny].
  rewrite !FloatAxioms.ltb_spec, sub_spec.
  change (Prim2SF 0) with (S754_zero false).
  apply SFsub_positive; assumption.
Qed.

End FloatOrder.

Import FloatOrder.

(** ** The sort of [parseLRC] *)

Module SortFacts.

Definition time_le (a b : LyricLine) : Prop :=
  PrimFloat.leb (time a) (time b) = true.

(** The time of a line is [+0] or a positive finite number. *)
Definition good_line (l : LyricLine) : Prop := good (time l) = true.

(** The lines whose time equals [f]. *)
Definition at_time (f : float) (l : list LyricLine) : list LyricLine :=
  List.filter (fun x => PrimFloat.eqb (time x) f) l.

Lemma comparefn_positive (a b : LyricLine) :
  good_line a -> good_line b ->
  PrimFloat.ltb 0 (comparefn a b) = PrimFloat.ltb (time b) (time a).
Proof. intros Ha Hb. apply sub_positive; assumption. Qed.

Lemma sort_insert_elem x acc y :
  In y (sort_insert x acc) <-> y = x \/ In y acc.
Proof.
  induction acc as [|z acc IH]; cbn [sort_insert].
  - cbn. intuition.
  - destruct (PrimFloat.ltb 0 (comparefn z x)); cbn [In]; [intuition|].
    rewrite IH. intuition.
Qed.

Lemma sort_insert_good x acc :
  good_line x -> Forall good_line acc -> Forall good_line (sort_insert x acc).
Proof.
  intros Hx Hacc. apply List.Forall_forall. intros y Hy.
  apply sort_insert_elem in Hy as [->|Hy]; [assumption|].
  rewrite List.Forall_forall in Hacc. auto.
Qed.

Lemma sort_insert_sorted x acc :
  good_line x -> Forall good_line acc ->
  StronglySorted time_le acc -> StronglySorted time_le (sort_insert x acc).
Proof.
  intros Hx Hg Hs. revert Hg.
  induction Hs as [|z acc Hs IH Hz]; intros Hg; cbn [sort_insert].
  - repeat constructor.
  - apply Forall_cons in Hg as [Hgz Hg].
    rewrite comparefn_positive by assumption.
    destruct (PrimFloat.ltb (time x) (time z)) eqn:E; cbv iota.
    + constructor; [constructor; assumption|].
      constructor; [apply ltb_leb; assumption|].
      rewrite List.Forall_forall in *. intros w Hw.
      eapply leb_trans; [apply ltb_leb; eassumption|]. apply Hz, Hw.
    + constructor; [apply IH; assumption|].
      apply List.Forall_forall. intros w Hw.
      apply sort_insert_elem in Hw as [->|Hw].
      * apply ltb_false_leb; auto using good_not_nan.
      * rewrite List.Forall_forall in Hz. auto.
Qed.

Lemma at_time_none f x z acc :
  PrimFloat.eqb (time x) f = true ->
  PrimFloat.ltb (time x) (time z) = true ->
  Forall (time_le z) acc ->
  at_time f (z :: acc) = [].
Proof.
  intros Hx Hz Hacc. unfold at_time.
  assert (H : forall w, In w (z :: acc) -> PrimFloat.eqb (time w) f = false).
  { intros w [<-|Hw].
    - apply (eqb_ltb_leb_neq f (time x) (time z)); auto.
      apply ltb_key in Hz as (_ & Hn & _). apply leb_key. auto.
    - rewrite List.Forall_forall in Hacc.
      apply (eqb_ltb_leb_neq f (time x) (time z)); auto. apply Hacc, Hw. }
  induction (z :: acc) as [|w l IH]; [reflexivity|].
  cbn. rewrite H by (left; reflexivity). apply IH. intros; apply H; right; assumption.
Qed.

(** Inserting keeps a new line behind the lines of the same time. *)
Lemma sort_insert_at_time f x acc :
  good_line x -> Forall good_line acc -> StronglySorted time_le acc ->
  at_time f (sort_insert x acc) = at_time f acc ++ at_time f [x].
Proof.
  intros Hx Hg Hs. revert Hg.
  induction Hs as [|z acc Hs IH Hz]; intros Hg; [reflexivity|].
  apply Forall_cons in Hg as [Hgz Hg]. cbn [sort_insert].
  rewrite comparefn_positive by assumption.
  destruct (PrimFloat.ltb (time x) (time z)) eqn:E; cbv iota.
  - destruct (PrimFloat.eqb (time x) f) eqn:Ex.
    + pose proof (at_time_none f x z acc Ex E Hz) as Hn.
      unfold at_time in *. cbn [List.filter] in *. rewrite Ex, Hn. reflexivity.
    + unfold at_time. cbn [List.filter]. rewrite Ex, app_nil_r. reflexivity.
  - unfold at_time in *. cbn [List.filter].
    destruct (PrimFloat.eqb (time z) f); rewrite IH by assumption; reflexivity.
Qed.

Lemma sort_insert_perm x acc : Permutation (sort_insert x acc) (x :: acc).
Proof.
  induction acc as [|z acc IH]; cbn [sort_insert]; [reflexivity|].
  destruct (PrimFloat.ltb 0 (comparefn z x)); [reflexivity|].
  rewrite IH. apply perm_swap.
Qed.

Lemma fold_insert_spec l : forall acc,
  Forall good_line l -> Forall good_line acc -> StronglySorted time_le acc ->
  let r := fold_left (fun sorted x => sort_insert x sorted) l acc in
  Forall good_line r /\ StronglySorted time_le r /\
  Permutation r (acc ++ l) /\
  forall f, at_time f r = at_time f acc ++ at_time f l.
Proof.
  induction l as [|x l IH]; intros acc Hl Hg Hs; cbv zeta; cbn [fold_left].
  - rewrite app_nil_r. repeat split; auto. intros f. unfold at_time. cbn.
    rewrite app_nil_r. reflexivity.
  - apply Forall_cons in Hl as [Hx Hl].
    pose proof (IH (sort_insert x acc) Hl (sort_insert_good x acc Hx Hg)
                  (sort_insert_sorted x acc Hx Hg Hs)) as H.
    cbv zeta in H. destruct H as (H1 & H2 & H3 & H4).
    repeat split; auto.
    + rewrite H3, sort_insert_perm.
      change (x :: acc) with ([x] ++ acc).
      rewrite (Permutation_app_comm [x] acc), <- app_assoc. reflexivity.
    + intros f. rewrite H4, sort_insert_at_time by assumption.
      rewrite <- app_assoc. f_equal.
      unfold at_time. cbn [List.filter].
      destruct (PrimFloat.eqb (time x) f); reflexivity.
Qed.

(** On lines with well-formed times [sort] returns a stable arrangement
    in ascending order. *)
Lemma sort_spec l :
  Forall good_line l ->
  Forall good_line (sort l) /\ StronglySorted time_le (sort l) /\
  Permutation (sort l) l /\ forall f, at_time f (sort l) = at_time f l.
Proof.
  intros Hl.
  pose proof (fold_insert_spec l [] Hl (List.Forall_nil _) (SSorted_nil _)) as H.
  cbv zeta in H. destruct H as (H1 & H2 & H3 & H4).
  repeat split; auto.
Qed.

Lemma sorted_adjacent (l : list LyricLine) :
  StronglySorted time_le l ->
  forall i a b, l !! i = Some a -> l !! S i = Some b -> time_le a b.
Proof.
  induction 1 as [|z l Hs IH Hz]; intros i a b Ha Hb; [discriminate|].
  destruct i as [|i]; cbn in *.
  - injection Ha as <-. rewrite List.Forall_forall in Hz. apply Hz.
    destruct l; [discriminate|]. cbn in Hb. injection Hb as <-. left. reflexivity.
  - eapply IH; eassumption.
Qed.

End SortFacts.

(** ** The matcher *)

Module RegexFacts.

Definition all (p : char -> bool) (s : jsstring) : Prop :=
  Forall (fun c => p c = true) s.

Lemma run_zero p s : run p (Some 0%nat) s = 0%nat.
Proof. destruct s; reflexivity. Qed.

Lemma run_le_length p hi s : (run p hi s <= length s)%nat.
Proof.
  revert hi. induction s as [|c s IH]; intros hi.
  - destruct hi as [[|h]|]; cbn; lia.
  - destruct hi as [[|h]|]; cbn; try lia;
      destruct (p c); cbn; try lia; apply le_n_S, IH.
Qed.

Lemma run_le_hi p h s : (run p (Some h) s <= h)%nat.
Proof.
  revert h. induction s as [|c s IH]; intros h.
  - destruct h; cbn; lia.
  - destruct h as [|h]; cbn; [lia|].
    destruct (p c); [|lia]. cbn. apply le_n_S, IH.
Qed.

Lemma run_prefix p hi s n :
  (n <= run p hi s)%nat -> all p (firstn n s).
Proof.
  revert hi n. induction s as [|c s IH]; intros hi n Hn.
  - rewrite firstn_nil. constructor.
  - destruct n as [|n]; [constructor|].
    assert (H : p c = true /\ (n <= run p (option_map Nat.pred hi) s)%nat).
    { destruct hi as [[|h]|]; cbn in Hn |- *; try (exfalso; lia);
        destruct (p c); cbn in Hn |- *; try (exfalso; lia); split; auto; lia. }
    destruct H as [Hc Hr]. cbn. constructor; [assumption|].
    eapply IH, Hr.
Qed.

(** Without an upper bound the run covers a whole prefix inside the class
    that is followed by the end or by a character outside the class. *)
Lemma run_app p a rest :
  all p a ->
  match rest with [] => True | c :: _ => p c = false end ->
  run p None (a ++ rest) = length a.
Proof.
  intros Ha Hr. induction Ha as [|c a Hc Ha IH]; cbn.
  - destruct rest as [|c r]; [reflexivity|]. cbn. rewrite Hr. reflexivity.
  - rewrite Hc. f_equal. apply IH.
Qed.

Lemma run_all p s : all p s -> run p None s = length s.
Proof.
  intros Hs. pose proof (run_app p s [] Hs I) as H.
  rewrite app_nil_r in H. exact H.
Qed.

Lemma backtrack_sound {A} (f : nat -> option A) lo k r :
  backtrack f lo k = Some r -> exists n, (lo <= n <= k)%nat /\ f n = Some r.
Proof.
  induction k as [|k IH]; cbn [backtrack].
  - destruct (Nat.ltb_spec 0 lo); [discriminate|].
    destruct (f 0%nat) eqn:E; [|discriminate].
    intros [= <-]. exists 0%nat. split; [lia|assumption].
  - destruct (Nat.ltb_spec (S k) lo); [discriminate|].
    destruct (f (S k)) eqn:E.
    + intros [= <-]. exists (S k). split; [lia|assumption].
    + intros H'. apply IH in H' as (n & Hn & Hf). exists n. split; [lia|assumption].
Qed.

(** The greatest admissible count on which the continuation succeeds wins. *)
Lemma backtrack_first {A} (f : nat -> option A) lo k n r :
  (lo <= n <= k)%nat -> f n = Some r ->
  (forall m, (n < m <= k)%nat -> f m = None) ->
  backtrack f lo k = Some r.
Proof.
  intros Hn Hf Hnone. induction k as [|k IH]; cbn [backtrack].
  - assert (n = 0)%nat by lia. subst n.
    destruct (Nat.ltb_spec 0 lo); [lia|]. rewrite Hf. reflexivity.
  - destruct (Nat.ltb_spec (S k) lo); [lia|].
    destruct (Nat.eq_dec n (S k)) as [->|Hne].
    + rewrite Hf. reflexivity.
    + rewrite (Hnone (S k)) by lia. apply IH; [lia|].
      intros m Hm. apply Hnone. lia.
Qed.

Lemma backtrack_none {A} (f : nat -> option A) lo k :
  (forall n, (lo <= n <= k)%nat -> f n = None) -> backtrack f lo k = None.
Proof.
  intros H. destruct (backtrack f lo k) eqn:E; [|reflexivity].
  apply backtrack_sound in E as (n & Hn & Hf). rewrite H in Hf by assumption.
  discriminate.
Qed.

Lemma exec_chr c re bos s caps :
  exec (Chr c :: re) bos s = Some caps ->
  exists s', s = c :: s' /\ exec re false s' = Some caps.
Proof.
  cbn [exec]. destruct s as [|c' s']; [discriminate|].
  destruct (N.eqb_spec c c'); [|discriminate].
  subst. eauto.
Qed.

Lemma exec_chr_intro c re bos s' caps :
  exec re false s' = Some caps -> exec (Chr c :: re) bos (c :: s') = Some caps.
Proof. intros H. cbn [exec]. rewrite N.eqb_refl. exact H. Qed.

Lemma exec_grp k lo hi re bos s caps :
  exec (Grp k lo hi :: re) bos s = Some caps ->
  exists n caps',
    (lo <= n <= length s)%nat /\
    (forall h, hi = Some h -> (n <= h)%nat) /\
    all (cls_test k) (firstn n s) /\
    caps = firstn n s :: caps' /\
    exec re (bos && Nat.eqb n 0) (skipn n s) = Some caps'.
Proof.
  cbn [exec]. intros H. apply backtrack_sound in H as (n & Hn & Hf).
  destruct (exec re (bos && Nat.eqb n 0) (skipn n s)) as [caps'|] eqn:E;
    [|discriminate].
  injection Hf as <-. exists n, caps'.
  pose proof (run_le_length (cls_test k) hi s).
  repeat split; try lia; auto.
  - intros h ->. pose proof (run_le_hi (cls_test k) h s). lia.
  - eapply run_prefix. apply Hn.
Qed.

Lemma exec_eol re bos s caps :
  exec (Eol :: re) bos s = Some caps -> s = [] /\ exec re bos [] = Some caps.
Proof. cbn [exec]. destruct s; [auto|discriminate]. Qed.

Lemma search_from_sound re bos s caps :
  search_from re bos s = Some caps ->
  exists pre s', s = pre ++ s' /\
    exec re (bos && match pre with [] => true | _ => false end) s' = Some caps.
Proof.
  revert bos. induction s as [|c s IH]; intros bos; cbn [search_from].
  - destruct (exec re bos []) eqn:E; [|discriminate].
    intros [= <-]. exists [], []. rewrite andb_true_r. auto.
  - destruct (exec re bos (c :: s)) eqn:E.
    + intros [= <-]. exists [], (c :: s). rewrite andb_true_r. auto.
    + intros H. apply IH in H as (pre & s' & -> & H).
      exists (c :: pre), s'. rewrite andb_false_r. split; [reflexivity|].
      cbn in H. exact H.
Qed.

Lemma search_from_complete re s' caps :
  (forall bos, exec re bos s' = Some caps) ->
  forall pre bos, search_from re bos (pre ++ s') <> None.
Proof.
  intros H pre. induction pre as [|c pre IH]; intros bos.
  - cbn [app]. destruct s'; cbn [search_from]; rewrite H; discriminate.
  - cbn [app search_from]. destruct (exec re bos (c :: pre ++ s')); [discriminate|].
    apply IH.
Qed.

Lemma search_bol_only re s :
  search (Bol :: re) s = exec re true s.
Proof.
  assert (H : forall t, search_from (Bol :: re) false t = None).
  { induction t as [|c t IH]; cbn; auto. }
  unfold search. destruct s as [|c s]; cbn [search_from exec].
  - destruct (exec re true []); reflexivity.
  - destruct (exec re true (c :: s)); [reflexivity|apply H].
Qed.

End RegexFacts.

Import RegexFacts.

(** ** The two line patterns of [parseLRC] *)

Module Patterns.

(** [[key:value]] as a whole line. *)
Definition metadata_shape (s key value : jsstring) : Prop :=
  s = ch "[" :: key ++ ch ":" :: value ++ [ch "]"] /\
  key <> [] /\ all is_word key /\ value <> [] /\ all is_dot value.

(** The tag [[ab:cd.ef]]. *)
Definition time_tag (a b c d e f : char) : jsstring :=
  [ch "["; a; b; ch ":"; c; d; ch "."; e; f; ch "]"].

Definition digits6 (a b c d e f : char) : Prop :=
  is_digit a = true /\ is_digit b = true /\ is_digit c = true /\
  is_digit d = true /\ is_digit e = true /\ is_digit f = true.

(** A tag anywhere in the line, followed up to the end of the line by
    characters that [.] accepts. *)
Definition timed_shape (s pre : jsstring) (a b c d e f : char) (text : jsstring) : Prop :=
  s = pre ++ time_tag a b c d e f ++ text /\
  digits6 a b c d e f /\ all is_dot text.

Lemma exec_grp2 k re bos s caps :
  exec (Grp k 2 (Some 2%nat) :: re) bos s = Some caps ->
  exists a b s' caps',
    s = a :: b :: s' /\ cls_test k a = true /\ cls_test k b = true /\
    caps = [a; b] :: caps' /\ exec re false s' = Some caps'.
Proof.
  intros H. apply exec_grp in H as (n & caps' & Hn & Hh & Hall & -> & He).
  specialize (Hh 2%nat eq_refl). assert (n = 2)%nat by lia. subst n.
  destruct s as [|a [|b s']]; cbn in Hn; try lia.
  cbn in Hall, He. rewrite andb_false_r in He.
  inversion Hall as [|? ? Ha Hall']; subst. inversion Hall' as [|? ? Hb _]; subst.
  exists a, b, s', caps'. auto.
Qed.

Lemma exec_grp2_intro k re bos a b s' caps' :
  cls_test k a = true -> cls_test k b = true ->
  exec re false s' = Some caps' ->
  exec (Grp k 2 (Some 2%nat) :: re) bos (a :: b :: s') = Some ([a; b] :: caps').
Proof.
  intros Ha Hb H. cbn [exec run option_map Nat.pred]. rewrite Ha, Hb.
  rewrite run_zero. cbn. rewrite andb_false_r.
  change (skipn 0 s') with s'. rewrite H. reflexivity.
Qed.

Lemma exec_rest_of_line bos s caps :
  exec [Grp Dot 0 None; Eol] bos s = Some caps -> caps = [s] /\ all is_dot s.
Proof.
  intros H. apply exec_grp in H as (n & caps' & Hn & _ & Hall & -> & He).
  apply exec_eol in He as [Hs He]. cbn in He. injection He as <-.
  assert (Hlen : length (skipn n s) = 0%nat) by (rewrite Hs; reflexivity).
  rewrite length_skipn in Hlen.
  assert (n = length s) by lia. subst n.
  rewrite firstn_all in *. auto.
Qed.

Lemma exec_rest_of_line_intro bos s :
  all is_dot s -> exec [Grp Dot 0 None; Eol] bos s = Some [s].
Proof.
  intros Hs. cbn [exec cls_test]. rewrite (run_all _ s Hs).
  apply backtrack_first with (n := length s); [lia| |intros m Hm; lia].
  rewrite skipn_all, firstn_all. reflexivity.
Qed.

(** What a successful run of the timestamp pattern at a position means. *)
Lemma exec_timeRe_sound bos s caps :
  exec timeRe bos s = Some caps ->
  exists a b c d e f text,
    s = time_tag a b c d e f ++ text /\ digits6 a b c d e f /\ all is_dot text /\
    caps = [[a; b]; [c; d]; [e; f]; text].
Proof.
  unfold timeRe. intros H.
  apply exec_chr in H as (s1 & -> & H).
  apply exec_grp2 in H as (a & b & s2 & caps2 & -> & Ha & Hb & -> & H).
  apply exec_chr in H as (s3 & -> & H).
  apply exec_grp2 in H as (c & d & s4 & caps4 & -> & Hc & Hd & -> & H).
  apply exec_chr in H as (s5 & -> & H).
  apply exec_grp2 in H as (e & f & s6 & caps6 & -> & He & Hf & -> & H).
  apply exec_chr in H as (text & -> & H).
  apply exec_rest_of_line in H as [-> Ht].
  exists a, b, c, d, e, f, text. unfold digits6. cbn in *. auto 10.
Qed.

Lemma exec_timeRe_intro bos a b c d e f text :
  digits6 a b c d e f -> all is_dot text ->
  exec timeRe bos (time_tag a b c d e f ++ text)
  = Some [[a; b]; [c; d]; [e; f]; text].
Proof.
  intros (Ha & Hb & Hc & Hd & He & Hf) Ht. unfold timeRe, time_tag.
  cbn [app].
  apply exec_chr_intro, exec_grp2_intro; auto.
  apply exec_chr_intro, exec_grp2_intro; auto.
  apply exec_chr_intro, exec_grp2_intro; auto.
  apply exec_chr_intro, exec_rest_of_line_intro. assumption.
Qed.

Lemma search_timeRe_sound s caps :
  search timeRe s = Some caps ->
  exists pre a b c d e f text,
    timed_shape s pre a b c d e f text /\ caps = [[a; b]; [c; d]; [e; f]; text].
Proof.
  intros H. apply search_from_sound in H as (pre & s' & -> & H).
  apply exec_timeRe_sound in H as (a & b & c & d & e & f & text & -> & Hd & Ht & ->).
  exists pre, a, b, c, d, e, f, text. unfold timed_shape. auto.
Qed.

Lemma search_timeRe_complete s pre a b c d e f text :
  timed_shape s pre a b c d e f text -> search timeRe s <> None.
Proof.
  intros (-> & Hd & Ht). unfold search.
  eapply search_from_complete. intros bos. apply exec_timeRe_intro; assumption.
Qed.

(** A line that starts with the tag is matched at the tag. *)
Lemma search_timeRe_at_start a b c d e f text :
  digits6 a b c d e f -> all is_dot text ->
  search timeRe (time_tag a b c d e f ++ text) = Some [[a; b]; [c; d]; [e; f]; text].
Proof.
  intros Hd Ht. unfold search.
  pose proof (exec_timeRe_intro true a b c d e f text Hd Ht) as H.
  unfold time_tag in *. cbn [app] in *. cbn [search_from]. rewrite H. reflexivity.
Qed.

Lemma exec_value_sound bos s caps :
  exec [Grp Dot 1 None; Chr (ch "]"); Eol] bos s = Some caps ->
  exists value, s = value ++ [ch "]"] /\ value <> [] /\ all is_dot value /\
                caps = [value].
Proof.
  intros H. apply exec_grp in H as (n & caps' & Hn & _ & Hall & -> & H).
  apply exec_chr in H as (s' & Hs & H).
  apply exec_eol in H as [-> H]. cbn in H. injection H as <-.
  exists (firstn n s). repeat split; auto.
  - rewrite <- Hs. symmetry. apply firstn_skipn.
  - intros E. apply (f_equal (@length _)) in E. rewrite length_firstn in E.
    cbn in E. lia.
Qed.

Lemma exec_value_intro bos value :
  value <> [] -> all is_dot value ->
  exec [Grp Dot 1 None; Chr (ch "]"); Eol] bos (value ++ [ch "]"]) = Some [value].
Proof.
  intros Hne Hv. cbn [exec].
  assert (Hall : all is_dot (value ++ [ch "]"])).
  { apply Forall_app. split; [assumption|]. repeat constructor. }
  cbn [cls_test]. rewrite (run_all _ _ Hall).
  rewrite length_app. cbn [length].
  apply backtrack_first with (n := length value).
  - destruct value; [congruence|]. cbn. lia.
  - rewrite skipn_app, skipn_all, Nat.sub_diag. cbn [app skipn exec].
    rewrite N.eqb_refl, firstn_app, firstn_all, Nat.sub_diag. cbn.
    rewrite app_nil_r. reflexivity.
  - intros m Hm. assert (m = S (length value)) by lia. subst m.
    rewrite skipn_all2 by (rewrite length_app; cbn; lia). reflexivity.
Qed.

(** The metadata pattern matches exactly the lines of the metadata shape,
    and captures the key and the value. *)
Lemma search_metadataRe_sound s caps :
  search metadataRe s = Some caps ->
  exists key value, metadata_shape s key value /\ caps = [key; value].
Proof.
  unfold metadataRe. rewrite search_bol_only. intros H.
  apply exec_chr in H as (s1 & -> & H).
  apply exec_grp in H as (n & caps1 & Hn & _ & Hk & -> & H).
  cbn [andb] in H.
  apply exec_chr in H as (s2 & Hs2 & H).
  apply exec_value_sound in H as (value & -> & Hne & Hv & ->).
  exists (firstn n s1), value. split; [|reflexivity].
  unfold metadata_shape. repeat split; auto.
  - rewrite <- Hs2, firstn_skipn. reflexivity.
  - intros E. apply (f_equal (@length _)) in E. rewrite length_firstn in E.
    cbn in E. lia.
Qed.

Lemma search_metadataRe_complete s key value :
  metadata_shape s key value -> search metadataRe s = Some [key; value].
Proof.
  intros (-> & Hkne & Hk & Hvne & Hv).
  unfold metadataRe. rewrite search_bol_only.
  cbn [exec]. rewrite N.eqb_refl.
  rewrite (run_app _ key) by (auto; reflexivity).
  apply backtrack_first with (n := length key).
  - destruct key; [congruence|]. cbn. lia.
  - rewrite skipn_app, skipn_all, Nat.sub_diag. cbn [app skipn andb exec].
    rewrite N.eqb_refl.
    pose proof (exec_value_intro false value Hvne Hv) as H. cbn [exec] in H.
    rewrite H. rewrite firstn_app, firstn_all, Nat.sub_diag. cbn.
    rewrite app_nil_r. reflexivity.
  - intros m Hm. lia.
Qed.

End Patterns.

(** ** The value of a time tag *)

Module TimeValue.

Import Uint63.

(** The time of the tag with minutes [i], seconds [j], centiseconds [k]. *)
Definition tick (i j k : int) : float :=
  (of_uint63 i * 60 + of_uint63 j + of_uint63 k / 100)%float.

(** The same instant in centiseconds. *)
Definition centis (i j k : int) : int := (i * 6000 + j * 100 + k)%uint63.

(** [x] is within [2^-40] of [n / 100], decided on the mantissa and the
    exponent of [x] with machine integers. *)
Definition close_enough (n : int) (x : float) : bool :=
  if PrimFloat.Leibniz.eqb x zero then (n =? 0)%uint63
  else
    match classify x with
    | PNormal =>
        let '(r, se) := frshiftexp x in
        let mant := normfr_mantissa r in
        let k := (2154 - se)%uint63 in
        ((2092 <=? se) && (se <=? 2114) && (n <=? (4611686018427387904 >> k))
         && (let a := 100 * mant in
             let b := n << k in
             let tol := 100 << (k - 40) in
             if b <=? a then a - b <=? tol else b - a <=? tol))%uint63
    | _ => false
    end.

Definition small : list int :=
  Eval vm_compute in List.map (fun n => of_Z (Z.of_nat n)) (seq 0 100).

(** Checked by running the decision procedure on the million tags. *)
Lemma all_close_true :
  forallb (fun i => forallb (fun j => forallb (fun k =>
    close_enough (centis i j k) (tick i j k)) small) small) small = true.
Proof. vm_cast_no_check (eq_refl true). Qed.


Lemma classify_normal x :
  classify x = PNormal ->
  exists m e, Prim2SF x = S754_finite false m e /\ Zpos (digits2_pos m) = prec.
Proof.
  rewrite classify_spec. unfold SF64classify, SFclassify.
  destruct (Prim2SF x) as [[]|[]| |[] m e]; try discriminate.
  - destruct (Z.eqb_spec (Zpos (digits2_pos m)) prec); discriminate.
  - destruct (Z.eqb_spec (Zpos (digits2_pos m)) prec); [|discriminate].
    intros _. eauto.
Qed.

(** Mantissa and exponent of a normal number, as the primitives give them. *)
Lemma normal_decompose x m e :
  Prim2SF x = S754_finite false m e -> Zpos (digits2_pos m) = prec ->
  to_Z (normfr_mantissa (fst (frshiftexp x))) = Zpos m /\
  to_Z (snd (frshiftexp x)) = e + prec + FloatOps.shift.
Proof.
  intros Hx Hd. pose proof (frshiftexp_spec x) as H.
  destruct (frshiftexp x) as [r se]. cbn [fst snd].
  rewrite Hx in H. unfold SFfrexp in H. rewrite Hd, Z.leb_refl in H.
  injection H as Hr Hse. split; [|lia].
  rewrite normfr_mantissa_spec, Hr. cbn. reflexivity.
Qed.

Lemma pow2_range k : 40 <= k <= 62 -> 2 ^ 40 <= 2 ^ k <= 2 ^ 62.
Proof. intros H. split; apply Z.pow_le_mono_r; lia. Qed.

Lemma close_enough_sound n x :
  close_enough n x = true ->
  (x = zero /\ to_Z n = 0) \/
  exists m k,
    Prim2SF x = S754_finite false m (- k) /\ 40 <= k <= 62 /\
    Z.abs (100 * Zpos m - to_Z n * 2 ^ k) <= 100 * 2 ^ (k - 40).
Proof.
  unfold close_enough.
  destruct (PrimFloat.Leibniz.eqb x zero) eqn:Ez.
  { intros Hn. left. apply Leibniz.eqb_spec in Ez. apply eqb_spec in Hn.
    subst. split; reflexivity. }
  destruct (classify x) eqn:Ec; try discriminate.
  intros H. right.
  apply classify_normal in Ec as (m & e & Hx & Hd).
  destruct (normal_decompose x m e Hx Hd) as [Hm Hse].
  destruct (frshiftexp x) as [r se]. cbn [fst snd] in Hm, Hse.
  apply andb_prop in H as [H Hcmp]. apply andb_prop in H as [H Hguard].
  apply andb_prop in H as [Hlo Hhi].
  apply leb_spec in Hlo, Hhi, Hguard.
  change (to_Z 2092) with 2092 in Hlo. change (to_Z 2114) with 2114 in Hhi.
  unfold prec, FloatOps.shift in Hse.
  set (k := (2154 - se)%uint63) in *.
  assert (HwB : wB = 9223372036854775808) by reflexivity.
  assert (Hk : to_Z k = - e).
  { unfold k. rewrite sub_spec. change (to_Z 2154) with 2154.
    rewrite Z.mod_small; lia. }
  exists m, (to_Z k). rewrite Hk, Z.opp_involutive. split; [assumption|].
  assert (Hkr : 40 <= - e <= 62) by lia. split; [assumption|].
  pose proof (pow2_range (- e) Hkr) as Hp.
  pose proof (digits2_pos_bounds m) as Hmb. rewrite Hd in Hmb.
  change (2 ^ prec) with 9007199254740992 in Hmb.
  change (2 ^ 40) with 1099511627776 in Hp.
  change (2 ^ 62) with 4611686018427387904 in Hp.
  rewrite lsr_spec, Hk in Hguard.
  change (to_Z 4611686018427387904) with 4611686018427387904 in Hguard.
  assert (Hnk : to_Z n * 2 ^ (- e) <= 4611686018427387904).
  { pose proof (Z.mul_div_le 4611686018427387904 (2 ^ (- e)) ltac:(lia)).
    pose proof (to_Z_bounded n).
    transitivity (4611686018427387904 / 2 ^ (- e) * 2 ^ (- e)); [|lia].
    apply Z.mul_le_mono_nonneg_r; lia. }
  pose proof (to_Z_bounded n) as Hnb.
  assert (Ha : to_Z (100 * normfr_mantissa r) = 100 * Zpos m).
  { rewrite mul_spec, Hm. change (to_Z 100) with 100.
    apply Z.mod_small. lia. }
  assert (Hb : to_Z (n << k) = to_Z n * 2 ^ (- e)).
  { rewrite lsl_spec, Hk. apply Z.mod_small. lia. }
  assert (Hk40 : to_Z (k - 40) = - e - 40).
  { rewrite sub_spec, Hk. change (to_Z 40) with 40. apply Z.mod_small. lia. }
  assert (Hp2 : 1 <= 2 ^ (- e - 40) <= 2 ^ 22).
  { split; [apply (Z.pow_le_mono_r 2 0); lia | apply Z.pow_le_mono_r; lia]. }
  change (2 ^ 22) with 4194304 in Hp2.
  assert (Ht : to_Z (100 << (k - 40)) = 100 * 2 ^ (- e - 40)).
  { rewrite lsl_spec, Hk40. change (to_Z 100) with 100. apply Z.mod_small. lia. }
  destruct ((n << k) <=? (100 * normfr_mantissa r))%uint63 eqn:Eba.
  - apply leb_spec in Eba, Hcmp. rewrite Ha, Hb in Eba.
    rewrite Ht, sub_spec, Ha, Hb, Z.mod_small in Hcmp by lia. lia.
  - assert (Hlt : 100 * Zpos m < to_Z n * 2 ^ (- e)).
    { destruct (Z.lt_ge_cases (100 * Zpos m) (to_Z n * 2 ^ (- e))); [assumption|].
      exfalso. rewrite <- not_true_iff_false in Eba. apply Eba.
      apply leb_spec. rewrite Ha, Hb. lia. }
    apply leb_spec in Hcmp.
    rewrite Ht, sub_spec, Ha, Hb, Z.mod_small in Hcmp by lia. lia.
Qed.

Lemma small_spec : small = List.map (fun n => of_Z (Z.of_nat n)) (seq 0 100).
Proof. vm_compute. reflexivity. Qed.

Lemma centis_value i j k :
  In i small -> In j small -> In k small ->
  to_Z (centis i j k)
  = (6000 * to_Z i + 100 * to_Z j + to_Z k)%Z.
Proof.
  assert (Hs : forall n, In n small -> 0 <= to_Z n < 100).
  { intros n Hn. rewrite small_spec in Hn. apply in_map_iff in Hn as (m & <- & Hm).
    apply in_seq in Hm. rewrite of_Z_spec, Z.mod_small; [lia|].
    assert (wB = 9223372036854775808) by reflexivity. lia. }
  intros Hi Hj Hk. apply Hs in Hi, Hj, Hk.
  assert (HwB : wB = 9223372036854775808) by reflexivity.
  unfold centis.
  rewrite !add_spec, !mul_spec.
  change (to_Z 6000%uint63) with 6000.
  change (to_Z 100%uint63) with 100.
  rewrite (Z.mod_small (to_Z i * 6000)) by lia.
  rewrite (Z.mod_small (to_Z j * 100)) by lia.
  rewrite (Z.mod_small (to_Z i * 6000 + to_Z j * 100)) by lia.
  rewrite Z.mod_small by lia. lia.
Qed.

End TimeValue.

Import Patterns TimeValue.

Module TimeFacts.

(** Rational value of a finite binary64 number. *)
Definition SF2Q (x : spec_float) : option Q :=
  match x with
  | S754_zero _ => Some 0%Q
  | S754_finite s m e =>
      let n := if s then Zneg m else Zpos m in
      Some match e with
           | Zneg p => n # (2 ^ p)%positive
           | _ => inject_Z (n * 2 ^ e)
           end
  | _ => None
  end.

Definition number_value (x : float) : option Q := SF2Q (Prim2SF x).

(** The number a two-digit capture stands for, as a machine integer. *)
Definition two_digits (a b : char) : Uint63.int :=
  Uint63.of_Z (10 * digit_value a + digit_value b).

Lemma is_digit_range c : is_digit c = true <-> (48 <= c <= 57)%N.
Proof.
  unfold is_digit, in_range. rewrite andb_true_iff, !N.leb_le. reflexivity.
Qed.

Lemma digit_value_range c : is_digit c = true -> 0 <= digit_value c <= 9.
Proof. rewrite is_digit_range. unfold digit_value. lia. Qed.

Lemma is_digit_cases c :
  is_digit c = true ->
  In c [48; 49; 50; 51; 52; 53; 54; 55; 56; 57]%N.
Proof.
  rewrite is_digit_range. intros H. cbn.
  assert (c = 48 \/ c = 49 \/ c = 50 \/ c = 51 \/ c = 52 \/ c = 53 \/ c = 54
          \/ c = 55 \/ c = 56 \/ c = 57)%N by lia.
  intuition.
Qed.

Lemma take_digits_all s : all is_digit s -> take_digits s = s.
Proof.
  induction 1 as [|c s Hc Hs IH]; cbn; [reflexivity|].
  rewrite Hc, IH. reflexivity.
Qed.

(** [parseInt] on a non-empty string of decimal digits is its value. *)
Lemma parseInt_digits s :
  s <> [] -> all is_digit s -> parseInt s = of_Z (digits_value s).
Proof.
  intros Hne Hs. destruct s as [|c s]; [congruence|].
  pose proof (take_digits_all _ Hs) as Ht.
  inversion Hs as [|? ? Hc Hs']; subst.
  apply is_digit_cases in Hc. cbn [In] in Hc.
  unfold parseInt.
  repeat (destruct Hc as [<-|Hc];
    [match goal with
     | |- context [trimStart (?c :: ?t)] => change (trimStart (c :: t)) with (c :: t)
     end; cbv beta iota zeta; unfold jsstring, char in *; rewrite Ht;
     reflexivity|]).
  destruct Hc.
Qed.

Lemma of_Z_of_uint63 z :
  0 <= z < Uint63.wB -> of_Z z = of_uint63 (Uint63.of_Z z).
Proof.
  intros Hz. unfold of_Z.
  rewrite <- (SF2Prim_Prim2SF (of_uint63 (Uint63.of_Z z))).
  rewrite of_uint63_spec, Uint63.of_Z_spec, Z.mod_small by assumption.
  reflexivity.
Qed.

Lemma digits_value_two a b :
  digits_value [a; b] = 10 * digit_value a + digit_value b.
Proof. unfold digits_value. cbn. lia. Qed.

Lemma parseInt_two_digits a b :
  is_digit a = true -> is_digit b = true ->
  parseInt [a; b] = of_uint63 (two_digits a b).
Proof.
  intros Ha Hb.
  rewrite parseInt_digits by (try discriminate; repeat constructor; assumption).
  rewrite digits_value_two. apply of_Z_of_uint63.
  apply digit_value_range in Ha, Hb.
  assert (Uint63.wB = 9223372036854775808) by reflexivity. lia.
Qed.

Lemma two_digits_value a b :
  is_digit a = true -> is_digit b = true ->
  Uint63.to_Z (two_digits a b) = 10 * digit_value a + digit_value b.
Proof.
  intros Ha Hb. unfold two_digits. rewrite Uint63.of_Z_spec.
  apply digit_value_range in Ha, Hb.
  assert (Uint63.wB = 9223372036854775808) by reflexivity.
  apply Z.mod_small. lia.
Qed.

Lemma two_digits_small a b :
  is_digit a = true -> is_digit b = true -> In (two_digits a b) small.
Proof.
  intros Ha Hb. rewrite small_spec. apply in_map_iff.
  apply digit_value_range in Ha, Hb.
  exists (Z.to_nat (10 * digit_value a + digit_value b)). split.
  - unfold two_digits. rewrite Z2Nat.id by lia. reflexivity.
  - apply in_seq. lia.
Qed.

Lemma tick_close i j k :
  In i small -> In j small -> In k small ->
  close_enough (centis i j k) (tick i j k) = true.
Proof.
  intros Hi Hj Hk. pose proof all_close_true as H.
  rewrite forallb_forall in H. specialize (H i Hi).
  rewrite forallb_forall in H. specialize (H j Hj).
  rewrite forallb_forall in H. exact (H k Hk).
Qed.

Lemma parseTimeToSeconds_tick a b c d e f :
  digits6 a b c d e f ->
  parseTimeToSeconds [a; b] [c; d] [e; f]
  = tick (two_digits a b) (two_digits c d) (two_digits e f).
Proof.
  intros (Ha & Hb & Hc & Hd & He & Hf). unfold parseTimeToSeconds, tick.
  rewrite !parseInt_two_digits by assumption. reflexivity.
Qed.

Lemma close_enough_good n x : close_enough n x = true -> good x = true.
Proof.
  unfold close_enough, good.
  destruct (PrimFloat.Leibniz.eqb x zero) eqn:Ez.
  - apply Leibniz.eqb_spec in Ez. subst. reflexivity.
  - destruct (classify x); try discriminate. reflexivity.
Qed.

(** Every time computed from a tag is [+0] or a positive finite number. *)
Lemma parseTimeToSeconds_good a b c d e f :
  digits6 a b c d e f -> good (parseTimeToSeconds [a; b] [c; d] [e; f]) = true.
Proof.
  intros H. rewrite parseTimeToSeconds_tick by assumption.
  destruct H as (Ha & Hb & Hc & Hd & He & Hf).
  eapply close_enough_good, tick_close; apply two_digits_small; assumption.
Qed.

(** A number accepted by the check is within [2^-40] of [n / 100]. *)
Lemma close_enough_value n x :
  close_enough n x = true ->
  exists q, number_value x = Some q /\
            (Qabs (q - (Uint63.to_Z n # 100)) <= 1 # 1099511627776)%Q.
Proof.
  intros H. apply close_enough_sound in H as [[-> Hn]|(m & k & Hx & Hk & Hb)].
  - exists 0%Q. split; [reflexivity|]. rewrite Hn. discriminate.
  - unfold number_value. rewrite Hx.
    destruct k as [|p|p]; try lia.
    change (- Z.pos p) with (Z.neg p). cbn [SF2Q].
    eexists. split; [reflexivity|].
    assert (Hp : Zpos (2 ^ p) = 2 ^ Zpos p) by apply Pos2Z.inj_pow.
    assert (Hsplit : 2 ^ Zpos p = 2 ^ (Zpos p - 40) * 1099511627776).
    { change 1099511627776 with (2 ^ 40). rewrite <- Z.pow_add_r by lia.
      f_equal. lia. }
    assert (Hpos : 0 < 2 ^ (Zpos p - 40)) by (apply Z.pow_pos_nonneg; lia).
    apply Qabs_Qle_condition.
    unfold Qle, Qminus, Qplus, Qopp. cbn [Qnum Qden].
    rewrite !Pos2Z.inj_mul, Hp, Hsplit.
    revert Hb. rewrite Hsplit.
    generalize (2 ^ (Zpos p - 40)) Hpos (Uint63.to_Z n). intros R HR N Hb.
    split; nia.
Qed.

(** The exact number of seconds a tag denotes. *)
Definition exact_seconds (a b c d e f : char) : Q :=
  (inject_Z (10 * digit_value a + digit_value b) * 60
   + inject_Z (10 * digit_value c + digit_value d)
   + inject_Z (10 * digit_value e + digit_value f) / 100)%Q.

Lemma exact_seconds_centis mm ss cc :
  (inject_Z mm * 60 + inject_Z ss + inject_Z cc / 100
   == (6000 * mm + 100 * ss + cc) # 100)%Q.
Proof.
  unfold Qeq, Qdiv, Qinv, Qplus, Qmult, inject_Z. cbn [Qnum Qden]. lia.
Qed.

(** The time computed for a tag is a finite number within [2^-40] of the
    exact value of the tag. *)
Lemma parseTimeToSeconds_value a b c d e f :
  digits6 a b c d e f ->
  exists q,
    number_value (parseTimeToSeconds [a; b] [c; d] [e; f]) = Some q /\
    (Qabs (q - exact_seconds a b c d e f) <= 1 # 1099511627776)%Q.
Proof.
  intros H. rewrite parseTimeToSeconds_tick by assumption.
  destruct H as (Ha & Hb & Hc & Hd & He & Hf).
  pose proof (two_digits_small a b Ha Hb) as Hi.
  pose proof (two_digits_small c d Hc Hd) as Hj.
  pose proof (two_digits_small e f He Hf) as Hk.
  destruct (close_enough_value _ _ (tick_close _ _ _ Hi Hj Hk)) as (q & Hq & Hle).
  exists q. split; [assumption|].
  rewrite centis_value, !two_digits_value in Hle by assumption.
  unfold exact_seconds. rewrite exact_seconds_centis. exact Hle.
Qed.

End TimeFacts.

Import SortFacts TimeFacts.

(** ** The parser *)

Module ParserFacts.

(** The state [parseLRC] starts from. *)
Definition empty_parser : LyricsParser :=
  {| lyrics := []; metadata := ∅; currentIndex := -1 |}.

(** The lines pushed by the loop of [parseLRC], in input order. *)
Definition collected (lrcContent : jsstring) : list LyricLine :=
  lyrics (fold_left parse_line (split_lf lrcContent) empty_parser).

(** The states a parser object can be in. *)
Inductive reachable : LyricsParser -> Prop :=
| reach_new : reachable new_parser
| reach_parseLRC p s : reachable p -> reachable (parseLRC p s)
| reach_getCurrentLyric p t : reachable p -> reachable (snd (getCurrentLyric p t))
| reach_clear p : reachable p -> reachable (clear p)
| reach_loadFromURL p url o : reachable p -> reachable (snd (loadFromURL p url o)).

Definition well_formed (p : LyricsParser) : Prop :=
  Forall good_line (lyrics p) /\ StronglySorted time_le (lyrics p).

(** The three outcomes of one loop iteration. *)
Lemma parse_line_cases p line :
  parse_line p line = p \/
  (exists key value,
      metadata_shape (trim line) key value /\
      parse_line p line =
        {| lyrics := lyrics p;
           metadata := set_property key (trim value) (metadata p);
           currentIndex := currentIndex p |}) \/
  (exists pre a b c d e f text,
      timed_shape (trim line) pre a b c d e f text /\
      search metadataRe (trim line) = None /\
      parse_line p line =
        {| lyrics := lyrics p ++
                     [{| time := parseTimeToSeconds [a; b] [c; d] [e; f];
                         text := trim text |}];
           metadata := metadata p;
           currentIndex := currentIndex p |}).
Proof.
  unfold parse_line. destruct (trim line) as [|c0 t] eqn:Et; [auto|].
  destruct (search metadataRe (c0 :: t)) as [caps|] eqn:Em.
  - apply search_metadataRe_sound in Em as (key & value & Hs & ->).
    right; left. exists key, value. auto.
  - destruct (search timeRe (c0 :: t)) as [caps|] eqn:Es; [|auto].
    apply search_timeRe_sound in Es
      as (pre & a & b & c & d & e & f & text & Hs & ->).
    right; right. exists pre, a, b, c, d, e, f, text. auto.
Qed.

Lemma parse_line_currentIndex p line :
  currentIndex (parse_line p line) = currentIndex p.
Proof.
  destruct (parse_line_cases p line)
    as [->|[(?&?&_&->)|(?&?&?&?&?&?&?&?&_&_&->)]]; reflexivity.
Qed.

Lemma parse_line_good p line :
  Forall good_line (lyrics p) -> Forall good_line (lyrics (parse_line p line)).
Proof.
  intros Hp.
  destruct (parse_line_cases p line)
    as [->|[(?&?&_&->)|(pre&a&b&c&d&e&f&text&(_&Hd&_)&_&->)]]; auto.
  cbn [lyrics]. apply Forall_app. split; [assumption|].
  constructor; [|constructor]. apply parseTimeToSeconds_good. assumption.
Qed.

Lemma fold_parse_line_currentIndex lines : forall p,
  currentIndex (fold_left parse_line lines p) = currentIndex p.
Proof.
  induction lines as [|l lines IH]; intros p; [reflexivity|].
  cbn [fold_left]. rewrite IH. apply parse_line_currentIndex.
Qed.

Lemma fold_parse_line_good lines : forall p,
  Forall good_line (lyrics p) ->
  Forall good_line (lyrics (fold_left parse_line lines p)).
Proof.
  induction lines as [|l lines IH]; intros p Hp; [assumption|].
  cbn [fold_left]. apply IH, parse_line_good, Hp.
Qed.

Lemma collected_good s : Forall good_line (collected s).
Proof. apply fold_parse_line_good. constructor. Qed.

Lemma parseLRC_nonempty p s :
  s <> [] ->
  parseLRC p s =
    {| lyrics := sort (collected s);
       metadata := metadata (fold_left parse_line (split_lf s) empty_parser);
       currentIndex := -1 |}.
Proof.
  intros Hs. destruct s as [|c s]; [congruence|].
  unfold parseLRC, collected, empty_parser.
  rewrite fold_parse_line_currentIndex. reflexivity.
Qed.

Lemma parseLRC_empty p : parseLRC p [] = p.
Proof. reflexivity. Qed.

Lemma well_formed_empty md c :
  well_formed {| lyrics := []; metadata := md; currentIndex := c |}.
Proof. split; constructor. Qed.

Lemma parseLRC_well_formed p s : well_formed p -> well_formed (parseLRC p s).
Proof.
  intros Hp. destruct s as [|c s]; [exact Hp|].
  rewrite parseLRC_nonempty by discriminate.
  destruct (sort_spec _ (collected_good (c :: s))) as (H1 & H2 & _).
  split; assumption.
Qed.

Lemma getCurrentLyric_lyrics p t :
  lyrics (snd (getCurrentLyric p t)) = lyrics p.
Proof.
  unfold getCurrentLyric.
  destruct (length (lyrics p) =? 0)%nat; [reflexivity|].
  destruct (scan (lyrics p) t 0 (-1) >=? 0); [|reflexivity].
  destruct (lyrics p !! Z.to_nat (scan (lyrics p) t 0 (-1))); reflexivity.
Qed.

Lemma loadFromURL_cases p url o :
  snd (loadFromURL p url o) = clear p \/
  exists s, snd (loadFromURL p url o) = parseLRC p s.
Proof.
  destruct o as [|[] status statusText [|s]]; cbn; eauto.
Qed.

(** Every reachable parser holds well-formed times in ascending order. *)
Lemma reachable_well_formed p : reachable p -> well_formed p.
Proof.
  induction 1 as [|p s _ IH|p t _ IH|p _ IH|p url o _ IH].
  - apply well_formed_empty.
  - apply parseLRC_well_formed, IH.
  - unfold well_formed. rewrite getCurrentLyric_lyrics. exact IH.
  - apply well_formed_empty.
  - destruct (loadFromURL_cases p url o) as [->|[s ->]].
    + apply well_formed_empty.
    + apply parseLRC_well_formed, IH.
Qed.

End ParserFacts.

Import ParserFacts.

(** ** The query *)

Module QueryFacts.

(** Number of leading lines whose time is at most [t]. *)
Fixpoint upto (l : list LyricLine) (t : float) : nat :=
  match l with
  | [] => 0
  | x :: r => if PrimFloat.leb (time x) t then S (upto r t) else 0
  end.

(** The result of a query without the [isNew] flag. *)
Definition payload (r : completion (option LyricMatch))
  : completion (option (jsstring * float * Z)) :=
  match r with
  | Return (Some m) => Return (Some (Match.text m, Match.time m, Match.index m))
  | Return None => Return None
  | Throw => Throw
  end.

(** What [getCurrentLyric] returns for the line [l] at index [i]. *)
Definition found (l : LyricLine) (i : nat) (isNew : bool)
  : completion (option LyricMatch) :=
  Return (Some {| Match.text := text l; Match.time := time l;
                  Match.index := Z.of_nat i; Match.isNew := isNew |}).

Lemma upto_le_length l t : (upto l t <= length l)%nat.
Proof.
  induction l as [|x l IH]; cbn; [lia|].
  destruct (PrimFloat.leb (time x) t); cbn; lia.
Qed.

Lemma scan_upto l t : forall i tgt,
  scan l t i tgt =
  match upto l t with
  | O => tgt
  | S n => i + Z.of_nat n
  end.
Proof.
  induction l as [|x l IH]; intros i tgt; cbn; [reflexivity|].
  destruct (PrimFloat.leb (time x) t); [|reflexivity].
  rewrite IH. destruct (upto l t); lia.
Qed.

Lemma upto_prefix l t j x :
  l !! j = Some x -> (j < upto l t)%nat -> PrimFloat.leb (time x) t = true.
Proof.
  revert j. induction l as [|y l IH]; intros j Hj Hlt; [discriminate|].
  cbn in Hlt. destruct (PrimFloat.leb (time y) t) eqn:E; [|lia].
  destruct j as [|j]; cbn in Hj.
  - injection Hj as <-. assumption.
  - eapply IH; [eassumption|lia].
Qed.

(** On sorted lines the lines at or before [t] are exactly the prefix
    that the scan walks over. *)
Lemma upto_sorted l t j x :
  StronglySorted time_le l ->
  l !! j = Some x -> PrimFloat.leb (time x) t = true -> (j < upto l t)%nat.
Proof.
  intros Hs. revert j. induction Hs as [|y l Hs IH Hy]; intros j Hj Hx;
    [discriminate|].
  cbn. destruct j as [|j]; cbn in Hj.
  - injection Hj as <-. rewrite Hx. lia.
  - assert (Hyx : time_le y x).
    { rewrite List.Forall_forall in Hy. apply Hy.
      apply list_elem_of_In. eapply list_elem_of_lookup_2. eassumption. }
    rewrite (leb_trans _ _ _ Hyx Hx). apply -> Nat.succ_lt_mono. eapply IH; eassumption.
Qed.

(** The query in terms of that prefix. *)
Lemma getCurrentLyric_upto p t :
  getCurrentLyric p t =
  match upto (lyrics p) t with
  | O => (Return None, p)
  | S n =>
      match lyrics p !! n with
      | Some l =>
          (found l n (negb (Z.of_nat n =? currentIndex p)),
           {| lyrics := lyrics p; metadata := metadata p;
              currentIndex := Z.of_nat n |})
      | None =>
          (Throw, {| lyrics := lyrics p; metadata := metadata p;
                     currentIndex := Z.of_nat n |})
      end
  end.
Proof.
  unfold getCurrentLyric. rewrite scan_upto.
  destruct (lyrics p) as [|x l] eqn:El; [reflexivity|].
  cbn [length Nat.eqb]. rewrite <- El.
  destruct (upto (lyrics p) t) as [|n] eqn:Eu; [reflexivity|].
  replace (0 + Z.of_nat n >=? 0) with true by (symmetry; apply Z.geb_le; lia).
  rewrite Z.add_0_l, Nat2Z.id. reflexivity.
Qed.

Lemma getCurrentLyric_no_throw p t : fst (getCurrentLyric p t) <> Throw.
Proof.
  rewrite getCurrentLyric_upto.
  pose proof (upto_le_length (lyrics p) t) as Hle.
  destruct (upto (lyrics p) t) as [|n]; [discriminate|].
  destruct (lyrics p !! n) as [l|] eqn:El; [discriminate|].
  apply lookup_ge_None in El. lia.
Qed.

End QueryFacts.

Import QueryFacts.

(** * The specification, claim by claim *)

(** The lines of the example of the specification, with a line feed
    between them. *)
Definition sample_track : jsstring :=
  lit "[ar:Test]" ++ [10%N] ++ lit "[00:01.50]Hello" ++ [10%N] ++ lit "[00:00.00]World".

(** Claim C1.  On a parser reached through its methods, [getCurrentLyric t]
    returns [null] exactly when no line has a time at or before [t];
    otherwise it returns the text, time and index of the line with the
    greatest index whose time is at or before [t].  Before the time of the
    first line the result is [null]; at or after the time of the last line it
    is the last line. *)
Theorem getCurrentLyric_greatest_index (p : LyricsParser) (t : float) :
  reachable p ->
  let r := fst (getCurrentLyric p t) in
  (r = Return None <->
   forall i l, lyrics p !! i = Some l -> PrimFloat.leb (time l) t = false) /\
  (r = Return None \/
   exists i l isNew,
     lyrics p !! i = Some l /\ PrimFloat.leb (time l) t = true /\
     (forall j l', lyrics p !! j = Some l' -> PrimFloat.leb (time l') t = true ->
                   (j <= i)%nat) /\
     r = found l i isNew) /\
  (forall l0, lyrics p !! 0%nat = Some l0 -> PrimFloat.ltb t (time l0) = true ->
              r = Return None) /\
  (forall ll, last (lyrics p) = Some ll -> PrimFloat.leb (time ll) t = true ->
              exists isNew, r = found ll (length (lyrics p) - 1) isNew).
Proof.
  intros Hr r. apply reachable_well_formed in Hr as [_ Hs].
  assert (Hcases :
    (upto (lyrics p) t = 0%nat /\ r = Return None) \/
    exists n l isNew, upto (lyrics p) t = S n /\ lyrics p !! n = Some l /\
                      r = found l n isNew).
  { subst r. rewrite getCurrentLyric_upto.
    pose proof (upto_le_length (lyrics p) t) as Hle.
    destruct (upto (lyrics p) t) as [|n] eqn:Eu; [left; auto|right].
    destruct (lyrics p !! n) as [l|] eqn:El.
    - exists n, l, (negb (Z.of_nat n =? currentIndex p)). auto.
    - apply lookup_ge_None in El. lia. }
  assert (Hin : forall j x, lyrics p !! j = Some x ->
                  (PrimFloat.leb (time x) t = true <-> (j < upto (lyrics p) t)%nat)).
  { intros j x Hj. split; [apply upto_sorted; assumption|].
    intros Hlt. eapply upto_prefix; eassumption. }
  clearbody r.
  destruct Hcases as [[Hu Hnone]|(n & l & isNew & Hu & Hl & Hf)].
  - repeat split.
    + intros _ i x Hi. apply not_true_iff_false. rewrite (Hin i x Hi), Hu. lia.
    + auto.
    + auto.
    + auto.
    + intros ll Hll Hle. rewrite last_lookup in Hll.
      apply (Hin _ _ Hll) in Hle. lia.
  - repeat split.
    + intros Hn. rewrite Hf in Hn. discriminate.
    + intros Hall. specialize (Hall n l Hl).
      rewrite <- not_true_iff_false, (Hin n l Hl), Hu in Hall. lia.
    + right. exists n, l, isNew. repeat split; auto.
      * apply (Hin n l Hl). lia.
      * intros j x Hj Hx. apply (Hin j x Hj) in Hx. lia.
    + intros l0 Hl0 Hlt. apply ltb_not_leb in Hlt.
      rewrite <- not_true_iff_false, (Hin _ _ Hl0), Hu in Hlt. lia.
    + intros ll Hll Hle. rewrite last_lookup in Hll.
      pose proof (Hin _ _ Hll) as [Hlt _]. specialize (Hlt Hle).
      pose proof (upto_le_length (lyrics p) t).
      assert (En : Nat.pred (length (lyrics p)) = n) by lia.
      rewrite En in Hll. rewrite Hl in Hll. injection Hll as ->.
      exists isNew. replace (length (lyrics p) - 1)%nat with n by lia. exact Hf.
Qed.

Lemma getCurrentLyric_greatest_index_witness :
  reachable (parseLRC new_parser sample_track) /\
  exists isNew,
    fst (getCurrentLyric (parseLRC new_parser sample_track) 1)
    = found {| time := 0; text := lit "World" |} 0 isNew.
Proof.
  split; [apply reach_parseLRC, reach_new|].
  pose proof (getCurrentLyric_greatest_index (parseLRC new_parser sample_track) 1
                (reach_parseLRC _ _ reach_new)) as (_ & [H|H] & _).
  - vm_compute in H. discriminate.
  - destruct H as (i & l & isNew & Hi & Hle & Hmax & Hf).
    exists isNew. rewrite Hf.
    assert (Hi0 : (1 <= i)%nat -> False).
    { intros Hge. destruct i as [|[|[|i]]]; try lia; vm_compute in Hi.
      - injection Hi as <-. vm_compute in Hle. discriminate.
      - discriminate.
      - discriminate. }
    destruct i as [|i]; [|exfalso; apply Hi0; lia].
    vm_compute in Hi. injection Hi as <-. reflexivity.
Defined.

(** Claim C2.  After [parseLRC] on any input string the lines of a parser
    reached through its methods are in ascending order of time, adjacent
    pair by adjacent pair.  When the input is not empty the lines are the
    collected ones rearranged, and the lines of each single time keep the
    order in which the input had them. *)
Theorem parseLRC_sorted_stable (p : LyricsParser) (raw : jsstring) :
  reachable p ->
  (forall i a b,
      lyrics (parseLRC p raw) !! i = Some a ->
      lyrics (parseLRC p raw) !! S i = Some b ->
      PrimFloat.leb (time a) (time b) = true) /\
  (raw <> [] ->
   Permutation (lyrics (parseLRC p raw)) (collected raw) /\
   forall f, at_time f (lyrics (parseLRC p raw)) = at_time f (collected raw)).
Proof.
  intros Hr. split.
  - apply reachable_well_formed in Hr.
    destruct (parseLRC_well_formed p raw Hr) as [_ Hs].
    apply sorted_adjacent, Hs.
  - intros Hne. rewrite parseLRC_nonempty by assumption. cbn [lyrics].
    destruct (sort_spec _ (collected_good raw)) as (_ & _ & Hperm & Hst).
    split; assumption.
Qed.

Lemma parseLRC_sorted_stable_witness :
  reachable new_parser /\ sample_track <> [] /\
  lyrics (parseLRC new_parser sample_track)
  = [{| time := 0; text := lit "World" |}; {| time := 1.5; text := lit "Hello" |}] /\
  at_time 0 (lyrics (parseLRC new_parser sample_track))
  = at_time 0 (collected sample_track).
Proof.
  split; [apply reach_new|]. split; [discriminate|]. split; [vm_compute; reflexivity|].
  apply (parseLRC_sorted_stable new_parser sample_track reach_new). discriminate.
Defined.

(** Claim C5, as the code has it.  [parseLRC] is defined on every string.
    On a non-empty string it leaves the cursor at [-1]; on the empty string
    the guard at its head returns at once and the parser, cursor included,
    is what it was. *)
Theorem parseLRC_resets_cursor (p : LyricsParser) (raw : jsstring) :
  (raw <> [] -> currentIndex (parseLRC p raw) = -1) /\
  parseLRC p [] = p.
Proof.
  split; [|reflexivity].
  intros Hne. rewrite parseLRC_nonempty by assumption. reflexivity.
Qed.

Lemma parseLRC_resets_cursor_witness :
  lit "[00:00.00]a" <> [] /\
  currentIndex (parseLRC (snd (getCurrentLyric (parseLRC new_parser sample_track) 2))
                  (lit "[00:00.00]a")) = -1.
Proof.
  split; [discriminate|].
  apply (parseLRC_resets_cursor _ (lit "[00:00.00]a")). discriminate.
Defined.

(** Claim C5 as stated fails: after a query has moved the cursor to [1],
    parsing the empty string leaves it at [1]. *)
Lemma parseLRC_empty_string_keeps_cursor :
  currentIndex (parseLRC (snd (getCurrentLyric (parseLRC new_parser sample_track) 2)) [])
  = 1 /\
  ~ (forall p raw, currentIndex (parseLRC p raw) = -1).
Proof.
  split; [vm_compute; reflexivity|].
  intros H.
  specialize (H (snd (getCurrentLyric (parseLRC new_parser sample_track) 2)) []).
  vm_compute in H. discriminate.
Qed.

(** Claim C6.  A query that finds a line reports [isNew] exactly when the
    index differs from the stored cursor, and then stores the index: so a
    second query resolving to the same index reports [isNew = false], and a
    query resolving to another index, a greater one in particular, reports
    [isNew = true]. *)
Theorem isNew_tracks_cursor (p : LyricsParser) (t : float) (m : LyricMatch) :
  fst (getCurrentLyric p t) = Return (Some m) ->
  Match.isNew m = negb (Match.index m =? currentIndex p) /\
  currentIndex (snd (getCurrentLyric p t)) = Match.index m /\
  (Match.index m <> currentIndex p -> Match.isNew m = true) /\
  (currentIndex p < Match.index m -> Match.isNew m = true) /\
  (forall t' m',
      fst (getCurrentLyric (snd (getCurrentLyric p t)) t') = Return (Some m') ->
      Match.index m' = Match.index m -> Match.isNew m' = false).
Proof.
  assert (Hstep : forall q u x,
    fst (getCurrentLyric q u) = Return (Some x) ->
    Match.isNew x = negb (Match.index x =? currentIndex q) /\
    currentIndex (snd (getCurrentLyric q u)) = Match.index x).
  { intros q u x. rewrite getCurrentLyric_upto.
    destruct (upto (lyrics q) u) as [|n]; [discriminate|].
    destruct (lyrics q !! n) as [l|]; [|discriminate].
    cbn [fst snd found]. intros [= <-]. cbn. auto. }
  intros H. destruct (Hstep p t m H) as [Hnew Hcur].
  repeat split; auto.
  - intros Hne. rewrite Hnew. apply negb_true_iff, Z.eqb_neq, Hne.
  - intros Hlt. rewrite Hnew. apply negb_true_iff, Z.eqb_neq. lia.
  - intros t' m' H' Hidx. destruct (Hstep _ t' m' H') as [Hnew' _].
    rewrite Hnew', Hcur, Hidx, Z.eqb_refl. reflexivity.
Qed.

Lemma isNew_tracks_cursor_witness :
  fst (getCurrentLyric (parseLRC new_parser sample_track) 2)
  = found {| time := 1.5; text := lit "Hello" |} 1 true /\
  currentIndex (snd (getCurrentLyric (parseLRC new_parser sample_track) 2)) = 1.
Proof.
  assert (H : fst (getCurrentLyric (parseLRC new_parser sample_track) 2)
              = found {| time := 1.5; text := lit "Hello" |} 1 true)
    by (vm_compute; reflexivity).
  split; [exact H|].
  apply (isNew_tracks_cursor (parseLRC new_parser sample_track) 2 _ H).
Defined.

(** Claim C7.  Whether a query finds a line, and the text, time and index it
    returns, depend on the lines and the query time only: parsers that differ
    in the cursor (and the metadata) give results that agree except for
    [isNew].  A query made after any other query, a backward seek included,
    therefore returns what it would have returned first. *)
Theorem result_independent_of_cursor
    (lines : list LyricLine) (md md' : gmap jsstring jsstring) (c c' : Z) (t : float) :
  payload (fst (getCurrentLyric
                  {| lyrics := lines; metadata := md; currentIndex := c |} t))
  = payload (fst (getCurrentLyric
                    {| lyrics := lines; metadata := md'; currentIndex := c' |} t))
  /\
  forall t',
    payload (fst (getCurrentLyric
                    (snd (getCurrentLyric
                            {| lyrics := lines; metadata := md; currentIndex := c |} t'))
                    t))
    = payload (fst (getCurrentLyric
                      {| lyrics := lines; metadata := md; currentIndex := c |} t)).
Proof.
  assert (H : forall q q', lyrics q = lyrics q' ->
            payload (fst (getCurrentLyric q t)) = payload (fst (getCurrentLyric q' t))).
  { intros q q' E. rewrite !getCurrentLyric_upto, E.
    destruct (upto (lyrics q') t) as [|n]; [reflexivity|].
    destruct (lyrics q' !! n); reflexivity. }
  split; [apply H; reflexivity|].
  intros t'. apply H. apply getCurrentLyric_lyrics.
Qed.

(** The load failed: [fetch] was rejected, or the status of the response
    was not OK, or reading the body with [response.text()] was rejected.
    Every outcome is a failure except an OK response whose body text was
    delivered. *)
Definition fetch_failed (fetched : fetch_outcome) : bool :=
  match fetched with
  | FetchRejected => true
  | Response ok _ _ body =>
      negb ok || match body with
                 | BodyRejected => true
                 | BodyText _ => false
                 end
  end.

Lemma fetch_failed_false (fetched : fetch_outcome) :
  fetch_failed fetched = false <->
  exists status statusText lrcContent,
    fetched = Response true status statusText (BodyText lrcContent).
Proof.
  split.
  - destruct fetched as [|[] status statusText [|s]]; try discriminate. eauto.
  - intros (status & statusText & s & ->). reflexivity.
Qed.

(** Claim C9.  When the load fails, through a rejected request, a response
    whose status is not OK, or a body that cannot be read, [loadFromURL]
    resolves to [false] with no lines, no metadata and the cursor at [-1],
    and every later query returns [null]. *)
Theorem loadFromURL_failure_clears
    (p : LyricsParser) (url : jsstring) (fetched : fetch_outcome) :
  fetch_failed fetched = true ->
  fst (loadFromURL p url fetched) = false /\
  lyrics (snd (loadFromURL p url fetched)) = [] /\
  metadata (snd (loadFromURL p url fetched)) = ∅ /\
  currentIndex (snd (loadFromURL p url fetched)) = -1 /\
  forall t,
    getCurrentLyric (snd (loadFromURL p url fetched)) t
    = (Return None, snd (loadFromURL p url fetched)).
Proof.
  destruct fetched as [|[] status statusText [|s]]; cbn; try discriminate;
    intros _; repeat split.
Qed.

Lemma loadFromURL_failure_clears_witness :
  (fetch_failed (Response true 200 (lit "OK") BodyRejected) = true /\
   snd (loadFromURL (parseLRC new_parser sample_track) (lit "song.lrc")
          (Response true 200 (lit "OK") BodyRejected)) = new_parser) /\
  (fetch_failed (Response false 404 (lit "Not Found") (BodyText sample_track)) = true /\
   fst (loadFromURL (parseLRC new_parser sample_track) (lit "song.lrc")
          (Response false 404 (lit "Not Found") (BodyText sample_track))) = false) /\
  (fetch_failed FetchRejected = true /\
   fst (loadFromURL (parseLRC new_parser sample_track) (lit "song.lrc") FetchRejected)
   = false).
Proof.
  split; [|split].
  - split; [reflexivity|].
    destruct (loadFromURL_failure_clears (parseLRC new_parser sample_track)
                (lit "song.lrc") (Response true 200 (lit "OK") BodyRejected) eq_refl)
      as (_ & Hl & Hm & Hc & _).
    destruct (snd (loadFromURL (parseLRC new_parser sample_track) (lit "song.lrc")
                     (Response true 200 (lit "OK") BodyRejected))) as [l m c].
    cbn in Hl, Hm, Hc. subst. reflexivity.
  - split; [reflexivity|].
    apply (loadFromURL_failure_clears (parseLRC new_parser sample_track)
             (lit "song.lrc")
             (Response false 404 (lit "Not Found") (BodyText sample_track)) eq_refl).
  - split; [reflexivity|].
    apply (loadFromURL_failure_clears (parseLRC new_parser sample_track)
             (lit "song.lrc") FetchRejected eq_refl).
Defined.

(** Claim C10.  A query never changes the lines or the metadata; it may
    change the cursor only, and a query that returns [null] changes
    nothing. *)
Theorem getCurrentLyric_frame (p : LyricsParser) (t : float) :
  lyrics (snd (getCurrentLyric p t)) = lyrics p /\
  metadata (snd (getCurrentLyric p t)) = metadata p /\
  (fst (getCurrentLyric p t) = Return None -> snd (getCurrentLyric p t) = p).
Proof.
  rewrite getCurrentLyric_upto.
  destruct (upto (lyrics p) t) as [|n]; [auto|].
  destruct (lyrics p !! n); cbn; repeat split; discriminate.
Qed.

Lemma getCurrentLyric_frame_witness :
  fst (getCurrentLyric (parseLRC new_parser (lit "[00:05.00]Late")) 1) = Return None /\
  snd (getCurrentLyric (parseLRC new_parser (lit "[00:05.00]Late")) 1)
  = parseLRC new_parser (lit "[00:05.00]Late").
Proof.
  split; [vm_compute; reflexivity|].
  apply (getCurrentLyric_frame (parseLRC new_parser (lit "[00:05.00]Late")) 1).
  vm_compute. reflexivity.
Defined.

(** ** Trimming *)

Module StringFacts.

Lemma trimStart_nonspace c s : is_space c = false -> trimStart (c :: s) = c :: s.
Proof. intros H. cbn. rewrite H. reflexivity. Qed.

Lemma trimStart_spaces ws s : all is_space ws -> trimStart (ws ++ s) = trimStart s.
Proof.
  induction 1 as [|c ws Hc _ IH]; [reflexivity|].
  cbn. rewrite Hc. exact IH.
Qed.

Lemma trimEnd_spaces s ws : all is_space ws -> trimEnd (s ++ ws) = trimEnd s.
Proof.
  intros H. unfold trimEnd. rewrite rev_app_distr, trimStart_spaces; [reflexivity|].
  apply Forall_rev, H.
Qed.

Lemma trimEnd_nonspace s c : is_space c = false -> trimEnd (s ++ [c]) = s ++ [c].
Proof.
  intros H. unfold trimEnd. rewrite rev_app_distr. cbn [rev app].
  rewrite trimStart_nonspace by assumption.
  cbn [rev]. rewrite rev_involutive. reflexivity.
Qed.

(** A string between two characters that are not white space, with white
    space around it, trims to itself. *)
Lemma trim_framed ws1 c s d ws2 :
  all is_space ws1 -> is_space c = false -> is_space d = false -> all is_space ws2 ->
  trim (ws1 ++ c :: s ++ [d] ++ ws2) = c :: s ++ [d].
Proof.
  intros H1 Hc Hd H2. unfold trim.
  rewrite trimStart_spaces, trimStart_nonspace by assumption.
  change (c :: s ++ [d] ++ ws2) with ((c :: s) ++ [d] ++ ws2).
  rewrite app_assoc, trimEnd_spaces, trimEnd_nonspace by assumption.
  reflexivity.
Qed.

Lemma trim_nospace s :
  match s with [] => True | c :: _ => is_space c = false end ->
  match rev s with [] => True | d :: _ => is_space d = false end ->
  trim s = s.
Proof.
  intros Hc Hd. unfold trim, trimEnd.
  destruct s as [|c s]; [reflexivity|].
  rewrite trimStart_nonspace by assumption.
  destruct (rev (c :: s)) as [|d r] eqn:E.
  - apply (f_equal (@length _)) in E. rewrite length_rev in E. discriminate.
  - rewrite trimStart_nonspace by assumption. rewrite <- E. apply rev_involutive.
Qed.

Lemma digit_not_space c : is_digit c = true -> is_space c = false.
Proof.
  rewrite is_digit_range. intros H. unfold is_space, in_range.
  repeat (apply orb_false_intro);
    try (apply N.eqb_neq; lia);
    apply andb_false_iff; rewrite !N.leb_gt; lia.
Qed.

Lemma digit_is_word c : is_digit c = true -> is_word c = true.
Proof. unfold is_word, is_digit. intros ->. apply orb_true_iff. left. apply orb_true_r. Qed.

Lemma digit_is_dot c : is_digit c = true -> is_dot c = true.
Proof.
  rewrite is_digit_range. intros H. unfold is_dot, is_line_terminator.
  apply negb_true_iff. repeat (apply orb_false_intro); apply N.eqb_neq; lia.
Qed.

End StringFacts.

Import StringFacts.

(** A line that is only a time tag, with white space after it or not, goes
    to the metadata: the metadata pattern is tried first and accepts it,
    with the minutes as the key. *)
Lemma tag_only_line_is_metadata p a b c d e f ws :
  digits6 a b c d e f -> all is_space ws ->
  parse_line p (time_tag a b c d e f ++ ws)
  = {| lyrics := lyrics p;
       metadata := set_property [a; b] [c; d; ch "."; e; f] (metadata p);
       currentIndex := currentIndex p |}.
Proof.
  intros (Ha & Hb & Hc & Hd & He & Hf) Hws.
  assert (Ht : trim (time_tag a b c d e f ++ ws) = time_tag a b c d e f).
  { exact (trim_framed [] (ch "[") [a; b; ch ":"; c; d; ch "."; e; f] (ch "]") ws
             (List.Forall_nil _) eq_refl eq_refl Hws). }
  assert (Hm : search metadataRe (time_tag a b c d e f)
               = Some [[a; b]; [c; d; ch "."; e; f]]).
  { apply search_metadataRe_complete. unfold metadata_shape.
    split; [reflexivity|]. split; [discriminate|].
    split; [repeat constructor; apply digit_is_word; assumption|].
    split; [discriminate|].
    repeat constructor; try (apply digit_is_dot; assumption). }
  unfold parse_line. rewrite Ht. unfold time_tag at 1. rewrite Hm.
  cbn [nth]. rewrite (trim_nospace [c; d; ch "."; e; f]);
    [reflexivity | apply digit_not_space, Hc | apply digit_not_space, Hf].
Qed.

(** Claim C3, on the input ["[00:01.00]"]: the line is not recorded as a
    lyric line with an empty text; no lyric line is recorded at all and the
    metadata gets the entry ["00"] with the value ["01.00"]. *)
Theorem timestamp_only_line_evaluated :
  lyrics (parseLRC new_parser (lit "[00:01.00]")) = [] /\
  metadata (parseLRC new_parser (lit "[00:01.00]")) !! lit "00" = Some (lit "01.00") /\
  hasLyrics (parseLRC new_parser (lit "[00:01.00]")) = false /\
  lyrics (parseLRC new_parser (lit "x[00:01.00]"))
  = [{| time := 1; text := [] |}].
Proof. vm_compute. repeat split. Qed.

(** The two whole-line shapes as Claim C4 words them: [[tag:value]], and a
    time tag at the start of the line followed by the text. *)
Definition whole_line_metadata (s : jsstring) : Prop :=
  exists key value, metadata_shape s key value.

Definition whole_line_timed (s : jsstring) : Prop :=
  exists a b c d e f text,
    digits6 a b c d e f /\ s = time_tag a b c d e f ++ text.

(** Claim C4 as stated fails on ["x[00:02.00]Line"]: the line has neither
    whole-line shape, and it is recorded as a lyric line at 2 seconds. *)
Lemma tag_inside_line_not_dropped :
  ~ whole_line_metadata (trim (lit "x[00:02.00]Line")) /\
  ~ whole_line_timed (trim (lit "x[00:02.00]Line")) /\
  lyrics (parse_line new_parser (lit "x[00:02.00]Line"))
  = [{| time := 2; text := lit "Line" |}] /\
  ~ (forall p line,
        ~ whole_line_metadata (trim line) -> ~ whole_line_timed (trim line) ->
        parse_line p line = p).
Proof.
  assert (H1 : ~ whole_line_metadata (trim (lit "x[00:02.00]Line"))).
  { intros (key & value & Hs & _). vm_compute in Hs. discriminate. }
  assert (H2 : ~ whole_line_timed (trim (lit "x[00:02.00]Line"))).
  { intros (a & b & c & d & e & f & text & _ & Hs). vm_compute in Hs. discriminate. }
  assert (H3 : lyrics (parse_line new_parser (lit "x[00:02.00]Line"))
               = [{| time := 2; text := lit "Line" |}]) by (vm_compute; reflexivity).
  repeat split; auto.
  intros H. specialize (H new_parser (lit "x[00:02.00]Line") H1 H2).
  rewrite H in H3. discriminate.
Qed.

(** Claim C4, as the code has it.  A line that, trimmed, neither has the
    whole-line metadata shape nor holds a time tag anywhere that is followed
    to the end of the line by characters other than line terminators is
    dropped: the parser is unchanged.  Parsing ["plain text"], a line feed
    and ["[00:02.00]Line"] yields exactly one lyric line. *)
Theorem unmatched_line_dropped (p : LyricsParser) (line : jsstring) :
  (~ whole_line_metadata (trim line) ->
   (forall pre a b c d e f text, ~ timed_shape (trim line) pre a b c d e f text) ->
   parse_line p line = p) /\
  lyrics (parseLRC p (lit "plain text" ++ [10%N] ++ lit "[00:02.00]Line"))
  = [{| time := 2; text := lit "Line" |}].
Proof.
  split; [|vm_compute; reflexivity].
  intros Hm Ht.
  destruct (parse_line_cases p line)
    as [H|[(key & value & Hs & _)|(pre & a & b & c & d & e & f & text & Hs & _)]].
  - exact H.
  - exfalso. apply Hm. exists key, value. exact Hs.
  - exfalso. exact (Ht _ _ _ _ _ _ _ _ Hs).
Qed.

Lemma unmatched_line_dropped_witness :
  parse_line (parseLRC new_parser sample_track) (lit "plain text")
  = parseLRC new_parser sample_track.
Proof.
  apply (unmatched_line_dropped (parseLRC new_parser sample_track) (lit "plain text")).
  - intros (key & value & Hs & _). vm_compute in Hs. discriminate.
  - intros pre a b c d e f text (Hs & _ & _).
    assert (Hin : In (ch "[") (trim (lit "plain text"))).
    { rewrite Hs. apply in_or_app. right. left. reflexivity. }
    vm_compute in Hin. intuition discriminate.
Defined.

(** Claim C8.  The time recorded for a line that [parseLRC] takes as a timed
    lyric line is a finite number within [2^-40] of [mm*60 + ss + cc/100],
    computed exactly, where [mm], [ss], [cc] are the two-digit fields of the
    tag matched in the line. *)
Theorem recorded_time_value (p : LyricsParser) (line : jsstring) (l : LyricLine) :
  lyrics (parse_line p line) = lyrics p ++ [l] ->
  exists pre a b c d e f text q,
    timed_shape (trim line) pre a b c d e f text /\
    time l = parseTimeToSeconds [a; b] [c; d] [e; f] /\
    number_value (time l) = Some q /\
    (Qabs (q - exact_seconds a b c d e f) <= 1 # 1099511627776)%Q.
Proof.
  intros H.
  destruct (parse_line_cases p line)
    as [E|[(key & value & _ & E)|(pre & a & b & c & d & e & f & text & Hs & _ & E)]];
    rewrite E in H; cbn [lyrics] in H.
  - apply (f_equal (@length _)) in H. rewrite length_app in H. cbn in H. lia.
  - apply (f_equal (@length _)) in H. rewrite length_app in H. cbn in H. lia.
  - apply app_inv_head in H. injection H as <-. cbn [time].
    destruct (parseTimeToSeconds_value a b c d e f) as (q & Hq & Hle);
      [apply Hs|].
    exists pre, a, b, c, d, e, f, text, q. auto.
Qed.

Lemma recorded_time_value_witness :
  exists pre a b c d e f text q,
    timed_shape (trim (lit "[01:02.50]Hi")) pre a b c d e f text /\
    time {| time := 62.5; text := lit "Hi" |} = parseTimeToSeconds [a; b] [c; d] [e; f] /\
    number_value (time {| time := 62.5; text := lit "Hi" |}) = Some q /\
    (Qabs (q - exact_seconds a b c d e f) <= 1 # 1099511627776)%Q.
Proof.
  apply (recorded_time_value new_parser (lit "[01:02.50]Hi")).
  vm_compute. reflexivity.
Defined.

(** * Further properties of the parser *)

(** ** Auxiliary facts *)

Module MoreFacts.

Definition head_nonspace (s : jsstring) : Prop :=
  match s with [] => True | c :: _ => is_space c = false end.

Lemma trimStart_decomp s :
  exists ws, s = ws ++ trimStart s /\ all is_space ws /\ head_nonspace (trimStart s).
Proof.
  induction s as [|c s (ws & Hs & Hws & Hh)]; [exists []; repeat split; constructor|].
  cbn [trimStart]. destruct (is_space c) eqn:E.
  - exists (c :: ws). cbn. rewrite <- Hs. repeat split; auto. constructor; assumption.
  - exists []. repeat split; [constructor|exact E].
Qed.

Lemma trimEnd_decomp s :
  exists ws, s = trimEnd s ++ ws /\ all is_space ws /\ head_nonspace (rev (trimEnd s)).
Proof.
  destruct (trimStart_decomp (rev s)) as (ws & Hs & Hws & Hh).
  exists (rev ws). unfold trimEnd. rewrite rev_involutive. repeat split; auto.
  - rewrite <- rev_app_distr, <- Hs, rev_involutive. reflexivity.
  - apply Forall_rev, Hws.
Qed.

Lemma head_nonspace_prefix s ws :
  head_nonspace (s ++ ws) -> head_nonspace s.
Proof. destruct s; [constructor|auto]. Qed.

(** [trim] leaves no white space at either end. *)
Lemma trim_ends s : head_nonspace (trim s) /\ head_nonspace (rev (trim s)).
Proof.
  unfold trim.
  destruct (trimStart_decomp s) as (ws1 & _ & _ & Hh).
  destruct (trimEnd_decomp (trimStart s)) as (ws2 & Hs2 & _ & Hl).
  split; [|exact Hl]. rewrite Hs2 in Hh. eapply head_nonspace_prefix, Hh.
Qed.

Lemma trim_idempotent s : trim (trim s) = trim s.
Proof.
  destruct (trim_ends s) as [Hh Hl]. apply trim_nospace.
  - destruct (trim s); auto.
  - destruct (rev (trim s)); auto.
Qed.

Lemma trim_all p s : all p s -> all p (trim s).
Proof.
  intros H. unfold trim.
  destruct (trimStart_decomp s) as (ws1 & Hs1 & _ & _).
  destruct (trimEnd_decomp (trimStart s)) as (ws2 & Hs2 & _ & _).
  rewrite Hs1 in H. apply Forall_app in H as [_ H].
  rewrite Hs2 in H. apply Forall_app in H as [H _]. exact H.
Qed.

Lemma sort_insert_last x acc :
  good_line x -> Forall good_line acc -> Forall (fun y => time_le y x) acc ->
  sort_insert x acc = acc ++ [x].
Proof.
  intros Hx Hg Hle. induction acc as [|y acc IH]; [reflexivity|].
  apply Forall_cons in Hg as [Hy Hg]. apply Forall_cons in Hle as [Hyx Hle].
  cbn [sort_insert]. rewrite comparefn_positive by assumption.
  rewrite (leb_not_ltb _ _ Hyx). cbn [app]. f_equal. apply IH; assumption.
Qed.

Lemma fold_insert_sorted l : forall acc,
  Forall good_line (acc ++ l) -> StronglySorted time_le (acc ++ l) ->
  fold_left (fun sorted x => sort_insert x sorted) l acc = acc ++ l.
Proof.
  induction l as [|x l IH]; intros acc Hg Hs; cbn [fold_left].
  - rewrite app_nil_r. reflexivity.
  - assert (Hlast : sort_insert x acc = acc ++ [x]).
    { apply Forall_app in Hg as [Hga Hgx]. apply Forall_cons in Hgx as [Hgx _].
      apply sort_insert_last; auto.
      clear -Hs. induction acc as [|y acc IH]; [constructor|].
      cbn in Hs. apply StronglySorted_inv in Hs as [Hs Hy].
      constructor; [|apply IH, Hs].
      rewrite List.Forall_forall in Hy. apply Hy, in_or_app. right. left. reflexivity. }
    rewrite Hlast. rewrite IH; rewrite <- app_assoc; cbn [app]; auto.
Qed.

Lemma upto_mono l t t' :
  PrimFloat.leb t t' = true -> (upto l t <= upto l t')%nat.
Proof.
  intros Ht. induction l as [|x l IH]; cbn; [lia|].
  destruct (PrimFloat.leb (time x) t) eqn:E; [|lia].
  rewrite (leb_trans _ _ _ E Ht). lia.
Qed.

Lemma parse_line_length p line :
  (length (lyrics (parse_line p line)) <= S (length (lyrics p)))%nat.
Proof.
  destruct (parse_line_cases p line)
    as [->|[(?&?&_&->)|(?&?&?&?&?&?&?&?&_&_&->)]]; cbn [lyrics];
    rewrite ?length_app; cbn; lia.
Qed.

Lemma fold_parse_line_length lines : forall p,
  (length (lyrics (fold_left parse_line lines p)) <= length (lyrics p) + length lines)%nat.
Proof.
  induction lines as [|l lines IH]; intros p; cbn [fold_left length]; [lia|].
  pose proof (IH (parse_line p l)). pose proof (parse_line_length p l). lia.
Qed.

(** Every recorded text is trimmed and holds no line terminator. *)
Definition clean_text (l : LyricLine) : Prop :=
  trim (text l) = text l /\ all is_dot (text l).

Lemma parse_line_clean p line :
  Forall clean_text (lyrics p) -> Forall clean_text (lyrics (parse_line p line)).
Proof.
  intros Hp.
  destruct (parse_line_cases p line)
    as [->|[(?&?&_&->)|(pre&a&b&c&d&e&f&txt&(_&_&Ht)&_&->)]]; auto.
  cbn [lyrics]. apply Forall_app. split; [assumption|].
  constructor; [|constructor].
  split; cbn [text]; [apply trim_idempotent|apply trim_all, Ht].
Qed.

Lemma fold_parse_line_clean lines : forall p,
  Forall clean_text (lyrics p) ->
  Forall clean_text (lyrics (fold_left parse_line lines p)).
Proof.
  induction lines as [|l lines IH]; intros p Hp; [assumption|].
  cbn [fold_left]. apply IH, parse_line_clean, Hp.
Qed.

Lemma good_range x :
  good x = true ->
  PrimFloat.leb 0 x = true /\ PrimFloat.ltb x infinity = true.
Proof.
  intros H. apply good_spec in H as [_ H].
  split; [apply leb_key|apply ltb_key]; unfold fnan, fkey;
    destruct (Prim2SF x) as [[]|[]| |[] m e]; try discriminate;
    change (Prim2SF 0) with (S754_zero false);
    change (Prim2SF infinity) with (S754_infinity false);
    cbn; unfold lt3; cbn; repeat split; auto; lia.
Qed.

End MoreFacts.

Import MoreFacts.

(** ** Parsing *)

(** A parse of a non-empty string replaces whatever the parser held: the
    result does not depend on the parser it is called on. *)
Theorem parseLRC_replaces_content (p p' : LyricsParser) (s : jsstring) :
  s <> [] -> parseLRC p s = parseLRC p' s.
Proof. intros Hs. rewrite !parseLRC_nonempty by assumption. reflexivity. Qed.

Lemma parseLRC_replaces_content_witness :
  parseLRC (parseLRC new_parser sample_track) (lit "[00:03.00]c")
  = parseLRC new_parser (lit "[00:03.00]c").
Proof. apply parseLRC_replaces_content. discriminate. Defined.

(** The metadata pattern accepts a string exactly when it is [[key:value]]
    with a non-empty key of word characters and a non-empty value without
    line terminators, and it captures that key and that value. *)
Theorem metadata_pattern_exact (s : jsstring) :
  (forall key value,
      search metadataRe s = Some [key; value] <-> metadata_shape s key value) /\
  (forall caps, search metadataRe s = Some caps ->
                exists key value, caps = [key; value]).
Proof.
  split.
  - intros key value. split.
    + intros H. apply search_metadataRe_sound in H as (k & v & Hs & [= -> ->]).
      exact Hs.
    + apply search_metadataRe_complete.
  - intros caps H. apply search_metadataRe_sound in H as (k & v & _ & ->). eauto.
Qed.

(** The timestamp pattern accepts a string exactly when a tag [[dd:dd.dd]]
    occurs somewhere in it and only characters other than line terminators
    follow the tag; its captures are the three fields of a tag of the string
    and the rest of the line, and for a tag at the start they are the fields
    of that tag. *)
Theorem timestamp_pattern_exact (s : jsstring) :
  (search timeRe s <> None <->
   exists pre a b c d e f text, timed_shape s pre a b c d e f text) /\
  (forall caps, search timeRe s = Some caps ->
     exists pre a b c d e f text,
       timed_shape s pre a b c d e f text /\ caps = [[a; b]; [c; d]; [e; f]; text]) /\
  (forall a b c d e f text,
     timed_shape s [] a b c d e f text ->
     search timeRe s = Some [[a; b]; [c; d]; [e; f]; text]).
Proof.
  split; [split|split].
  - intros H. destruct (search timeRe s) as [caps|] eqn:E; [|congruence].
    apply search_timeRe_sound in E as (pre & a & b & c & d & e & f & text & Hs & _).
    eauto 10.
  - intros (pre & a & b & c & d & e & f & text & Hs).
    eapply search_timeRe_complete, Hs.
  - apply search_timeRe_sound.
  - intros a b c d e f text (-> & Hd & Ht). cbn [app].
    apply search_timeRe_at_start; assumption.
Qed.

Lemma tag_only_line_is_metadata_witness :
  parse_line new_parser (lit "[12:34.56]" ++ lit "  ")
  = {| lyrics := [];
       metadata := set_property (lit "12") (lit "34.56") ∅;
       currentIndex := -1 |}.
Proof.
  apply (tag_only_line_is_metadata new_parser 49 50 51 52 53 54 (lit "  "))%N.
  - repeat split.
  - repeat constructor.
Defined.

(** A metadata line stores its trimmed value under its key, replacing an
    earlier value of that key, and touches nothing else. *)
Theorem metadata_line_stored (p : LyricsParser) (line key value : jsstring) :
  metadata_shape (trim line) key value -> key <> lit "__proto__" ->
  metadata (parse_line p line) !! key = Some (trim value) /\
  (forall k, k <> key -> metadata (parse_line p line) !! k = metadata p !! k) /\
  lyrics (parse_line p line) = lyrics p /\
  currentIndex (parse_line p line) = currentIndex p.
Proof.
  intros Hs Hk. pose proof (search_metadataRe_complete _ _ _ Hs) as Hm.
  unfold parse_line. destruct (trim line) as [|c0 t] eqn:Et.
  - destruct Hs as (Hs & _). discriminate.
  - rewrite Hm. cbn [nth metadata lyrics currentIndex]. unfold set_property.
    rewrite bool_decide_eq_false_2 by assumption.
    repeat split.
    + apply lookup_insert_eq.
    + intros k Hne. apply lookup_insert_ne. congruence.
Qed.

Lemma metadata_line_stored_witness :
  metadata (parse_line (parse_line new_parser (lit "[ar: Old ]")) (lit " [ar:New]"))
    !! lit "ar" = Some (lit "New").
Proof.
  apply (metadata_line_stored (parse_line new_parser (lit "[ar: Old ]"))
           (lit " [ar:New]") (lit "ar") (lit "New")).
  - unfold metadata_shape. repeat split; try discriminate; repeat constructor.
  - discriminate.
Defined.

(** Every line of the input yields at most one lyric line. *)
Theorem one_lyric_per_line_at_most (p : LyricsParser) (s : jsstring) :
  s <> [] -> (length (lyrics (parseLRC p s)) <= length (split_lf s))%nat.
Proof.
  intros Hs. rewrite parseLRC_nonempty by assumption. cbn [lyrics].
  destruct (sort_spec _ (collected_good s)) as (_ & _ & Hperm & _).
  rewrite (Permutation_length Hperm). unfold collected.
  pose proof (fold_parse_line_length (split_lf s) empty_parser) as H.
  cbn in H. exact H.
Qed.

Lemma one_lyric_per_line_at_most_witness :
  (length (lyrics (parseLRC new_parser (lit "[00:01.00][00:02.00]twice"))) <= 1)%nat.
Proof.
  apply (one_lyric_per_line_at_most new_parser (lit "[00:01.00][00:02.00]twice")).
  discriminate.
Defined.

(** When the timed lines of the input are already in ascending order of
    time, the parser holds them in the order of the input. *)
Theorem ordered_input_kept (p : LyricsParser) (s : jsstring) :
  s <> [] -> StronglySorted time_le (collected s) ->
  lyrics (parseLRC p s) = collected s.
Proof.
  intros Hs Hsorted. rewrite parseLRC_nonempty by assumption. cbn [lyrics].
  unfold sort. apply (fold_insert_sorted (collected s) []); cbn [app].
  - apply collected_good.
  - exact Hsorted.
Qed.

Lemma ordered_input_kept_witness :
  lyrics (parseLRC new_parser (lit "[00:01.00]a" ++ [10%N] ++ lit "[00:01.00]b"))
  = collected (lit "[00:01.00]a" ++ [10%N] ++ lit "[00:01.00]b").
Proof.
  apply ordered_input_kept; [discriminate|].
  assert (E : collected (lit "[00:01.00]a" ++ [10%N] ++ lit "[00:01.00]b")
              = [{| time := 1; text := lit "a" |}; {| time := 1; text := lit "b" |}])
    by (vm_compute; reflexivity).
  rewrite E. repeat constructor.
Defined.

(** The text of every line held after a parse is trimmed and contains no
    line terminator. *)
Theorem recorded_text_clean (p : LyricsParser) (s : jsstring) (l : LyricLine) :
  s <> [] -> In l (lyrics (parseLRC p s)) ->
  trim (text l) = text l /\ all is_dot (text l).
Proof.
  intros Hs Hl. rewrite parseLRC_nonempty in Hl by assumption. cbn [lyrics] in Hl.
  destruct (sort_spec _ (collected_good s)) as (_ & _ & Hperm & _).
  apply (Permutation_in _ Hperm) in Hl.
  assert (H : Forall clean_text (collected s))
    by (apply fold_parse_line_clean; constructor).
  rewrite List.Forall_forall in H. exact (H l Hl).
Qed.

Lemma recorded_text_clean_witness :
  trim (text {| time := 1; text := lit "a  b" |}) = lit "a  b".
Proof.
  apply (recorded_text_clean new_parser (lit "[00:01.00]   a  b   ")
           {| time := 1; text := lit "a  b" |}).
  - discriminate.
  - vm_compute. left. reflexivity.
Defined.

(** The time of every line a parser can hold is a number from zero up, and
    finite: never [NaN], never negative, never an infinity. *)
Theorem recorded_time_in_range (p : LyricsParser) (l : LyricLine) :
  reachable p -> In l (lyrics p) ->
  PrimFloat.leb 0 (time l) = true /\ PrimFloat.ltb (time l) infinity = true.
Proof.
  intros Hr Hl. apply reachable_well_formed in Hr as [Hg _].
  rewrite List.Forall_forall in Hg. apply good_range, Hg, Hl.
Qed.

Lemma recorded_time_in_range_witness :
  PrimFloat.leb 0 (time {| time := 1.5; text := lit "Hello" |}) = true /\
  PrimFloat.ltb (time {| time := 1.5; text := lit "Hello" |}) infinity = true.
Proof.
  apply (recorded_time_in_range (parseLRC new_parser sample_track)).
  - apply reach_parseLRC, reach_new.
  - vm_compute. right. left. reflexivity.
Defined.

(** ** Querying *)

(** [getCurrentLyric] never throws, whatever the fields of the parser hold:
    the index it reads is always inside the array. *)
Theorem getCurrentLyric_never_throws (p : LyricsParser) (t : float) :
  fst (getCurrentLyric p t) <> Throw.
Proof. apply getCurrentLyric_no_throw. Qed.

(** A later query time never resolves to an earlier line: when a query at
    [t] finds a line, a query at any [t'] from [t] up finds one too, at the
    same or a greater index. *)
Theorem query_index_monotone (p p' : LyricsParser) (t t' : float) (m : LyricMatch) :
  lyrics p' = lyrics p -> PrimFloat.leb t t' = true ->
  fst (getCurrentLyric p t) = Return (Some m) ->
  exists m', fst (getCurrentLyric p' t') = Return (Some m') /\
             Match.index m <= Match.index m'.
Proof.
  intros El Ht. rewrite !getCurrentLyric_upto, El.
  pose proof (upto_mono (lyrics p) t t' Ht) as Hmono.
  pose proof (upto_le_length (lyrics p) t') as Hlen.
  destruct (upto (lyrics p) t) as [|n]; [discriminate|].
  destruct (lyrics p !! n) as [l|]; [|discriminate].
  cbn [fst found]. intros [= <-].
  destruct (upto (lyrics p) t') as [|n']; [lia|].
  destruct (lyrics p !! n') as [l'|] eqn:El'.
  - eexists. split; [reflexivity|]. cbn. lia.
  - apply lookup_ge_None in El'. lia.
Qed.

Lemma query_index_monotone_witness :
  exists m',
    fst (getCurrentLyric (snd (getCurrentLyric (parseLRC new_parser sample_track) 1)) 2)
    = Return (Some m') /\ 0 <= Match.index m'.
Proof.
  assert (H : fst (getCurrentLyric (parseLRC new_parser sample_track) 1)
              = found {| time := 0; text := lit "World" |} 0 true)
    by (vm_compute; reflexivity).
  apply (query_index_monotone (parseLRC new_parser sample_track) _ 1 2 _
           (getCurrentLyric_lyrics _ _) eq_refl H).
Defined.

(** ** Clearing and loading *)

(** After [clear] the parser is as freshly constructed: it has no lyrics and
    every query returns [null] and changes nothing. *)
Theorem clear_then_query (p : LyricsParser) (t : float) :
  clear p = new_parser /\ hasLyrics (clear p) = false /\
  getCurrentLyric (clear p) t = (Return None, clear p).
Proof. repeat split. Qed.

(** [loadFromURL] resolves to [true] exactly when the parser holds at least
    one line afterwards, whatever the fetch produced. *)
Theorem loadFromURL_reports_hasLyrics
    (p : LyricsParser) (url : jsstring) (fetched : fetch_outcome) :
  fst (loadFromURL p url fetched) = hasLyrics (snd (loadFromURL p url fetched)).
Proof. destruct fetched as [|[] status statusText [|s]]; reflexivity. Qed.

(** A successful response with an empty body leaves the parser as it was,
    lines of the previous track included, and the load reports success when
    such lines exist. *)
Theorem loadFromURL_empty_body_keeps_track
    (p : LyricsParser) (url : jsstring) (status : Z) (statusText : jsstring) :
  loadFromURL p url (Response true status statusText (BodyText [])) = (hasLyrics p, p).
Proof. reflexivity. Qed.

(** ** The lyric line of the player *)

(** [updateLyrics] never throws and never blanks the lyric line: it leaves
    the text as it was or writes a non-empty text, which is the placeholder
    or the text of a line of the parser. *)
Theorem updateLyrics_never_blank (a : AudioPlayer) :
  fst (updateLyrics a) = Return tt /\
  (currentLyric (snd (updateLyrics a)) = currentLyric a \/
   exists s, currentLyric (snd (updateLyrics a)) = Some s /\ s <> [] /\
             (s = filler \/ exists l, In l (lyrics (lyricsParser a)) /\ s = text l)).
Proof.
  unfold updateLyrics.
  destruct (audio a) as [t|]; [|auto].
  destruct (currentLyric a) as [old|] eqn:Eold; [|auto].
  rewrite getCurrentLyric_upto.
  pose proof (upto_le_length (lyrics (lyricsParser a)) t) as Hlen.
  destruct (upto (lyrics (lyricsParser a)) t) as [|n].
  - destruct (hasLyrics (lyricsParser a)); cbn; [|auto].
    split; [reflexivity|]. right. exists filler. repeat split; [discriminate|auto].
  - destruct (lyrics (lyricsParser a) !! n) as [l|] eqn:El.
    + cbn [found Match.isNew Match.text].
      destruct (negb (Z.of_nat n =? currentIndex (lyricsParser a))); cbn; [|auto].
      split; [reflexivity|]. right.
      destruct (text l) as [|c s] eqn:Et.
      * exists filler. repeat split; [discriminate|auto].
      * exists (c :: s). repeat split; [discriminate|]. right. exists l.
        split; [|congruence].
        apply list_elem_of_In. eapply list_elem_of_lookup_2. eassumption.
    + apply lookup_ge_None in El. lia.
Qed.

(** While the clock is before the first line of a loaded track the lyric
    line shows the placeholder, and the parser is left as it was. *)
Theorem updateLyrics_filler_before_first_line
    (a : AudioPlayer) (t : float) (old : jsstring) (l0 : LyricLine) :
  audio a = Some t -> currentLyric a = Some old ->
  lyrics (lyricsParser a) !! 0%nat = Some l0 ->
  PrimFloat.ltb t (time l0) = true ->
  currentLyric (snd (updateLyrics a)) = Some filler /\
  lyricsParser (snd (updateLyrics a)) = lyricsParser a.
Proof.
  intros Ha Hc Hl Hlt. unfold updateLyrics. rewrite Ha, Hc.
  rewrite getCurrentLyric_upto.
  destruct (lyrics (lyricsParser a)) as [|x r] eqn:El; [discriminate|].
  cbn in Hl. injection Hl as ->.
  cbn [upto]. rewrite (ltb_not_leb _ _ Hlt).
  unfold hasLyrics. rewrite El. cbn. auto.
Qed.

Lemma updateLyrics_filler_before_first_line_witness :
  currentLyric
    (snd (updateLyrics
            {| lyricsParser := parseLRC new_parser (lit "[00:05.00]Late");
               currentLyric := Some (lit "old"); isPlaying := true;
               audio := Some 1%float |}))
  = Some filler.
Proof.
  apply (updateLyrics_filler_before_first_line
           {| lyricsParser := parseLRC new_parser (lit "[00:05.00]Late");
              currentLyric := Some (lit "old"); isPlaying := true;
              audio := Some 1%float |}
           1 (lit "old") {| time := 5; text := lit "Late" |});
    [reflexivity | reflexivity | vm_compute; reflexivity | vm_compute; reflexivity].
Defined.

(** Two clock ticks in a row that resolve to the same line: the second
    update leaves the lyric line as the first one left it. *)
Theorem updateLyrics_same_line_keeps_display
    (a : AudioPlayer) (t1 t2 : float) (m1 m2 : LyricMatch) :
  audio a = Some t1 ->
  fst (getCurrentLyric (lyricsParser a) t1) = Return (Some m1) ->
  fst (getCurrentLyric (lyricsParser a) t2) = Return (Some m2) ->
  Match.index m1 = Match.index m2 ->
  currentLyric (snd (updateLyrics (tick_to (snd (updateLyrics a)) t2)))
  = currentLyric (snd (updateLyrics a)).
Proof.
  intros Ha H1 H2 Hidx.
  rewrite getCurrentLyric_upto in H1, H2.
  unfold updateLyrics at 2 3. rewrite Ha.
  destruct (currentLyric a) as [old|] eqn:Ec;
    [|cbn [snd]; unfold updateLyrics; cbn [tick_to audio currentLyric];
      rewrite Ec; cbn; rewrite ?Ec; reflexivity].
  rewrite getCurrentLyric_upto.
  destruct (upto (lyrics (lyricsParser a)) t1) as [|n1]; [discriminate|].
  destruct (lyrics (lyricsParser a) !! n1) as [l1|]; [|discriminate].
  cbn [fst found] in H1. injection H1 as <-.
  destruct (upto (lyrics (lyricsParser a)) t2) as [|n2] eqn:E2; [discriminate|].
  destruct (lyrics (lyricsParser a) !! n2) as [l2|] eqn:El2; [|discriminate].
  cbn [fst found] in H2. injection H2 as <-.
  cbn [Match.index] in Hidx. apply Nat2Z.inj in Hidx. subst n2.
  assert (Hsecond : forall b,
    lyrics (lyricsParser b) = lyrics (lyricsParser a) ->
    currentIndex (lyricsParser b) = Z.of_nat n1 ->
    currentLyric (snd (updateLyrics (tick_to b t2))) = currentLyric b).
  { intros b Hlb Hcb. unfold updateLyrics. cbn [tick_to audio currentLyric lyricsParser].
    destruct (currentLyric b) as [s|] eqn:Es; [|cbn; exact Es].
    rewrite getCurrentLyric_upto, Hlb, E2, El2, Hcb, Z.eqb_refl.
    cbn. exact Es. }
  cbn [found Match.isNew Match.text].
  destruct (negb (Z.of_nat n1 =? currentIndex (lyricsParser a)));
    cbn [snd]; apply Hsecond; reflexivity.
Qed.

Lemma updateLyrics_same_line_keeps_display_witness :
  currentLyric
    (snd (updateLyrics
            (tick_to
               (snd (updateLyrics
                       {| lyricsParser := parseLRC new_parser sample_track;
                          currentLyric := Some (lit "old"); isPlaying := true;
                          audio := Some 0.5%float |})) 1)))
  = currentLyric
      (snd (updateLyrics
              {| lyricsParser := parseLRC new_parser sample_track;
                 currentLyric := Some (lit "old"); isPlaying := true;
                 audio := Some 0.5%float |})).
Proof.
  assert (H1 : fst (getCurrentLyric (parseLRC new_parser sample_track) 0.5)
               = found {| time := 0; text := lit "World" |} 0 true)
    by (vm_compute; reflexivity).
  assert (H2 : fst (getCurrentLyric (parseLRC new_parser sample_track) 1)
               = found {| time := 0; text := lit "World" |} 0 true)
    by (vm_compute; reflexivity).
  exact (updateLyrics_same_line_keeps_display
           {| lyricsParser := parseLRC new_parser sample_track;
              currentLyric := Some (lit "old"); isPlaying := true;
              audio := Some 0.5%float |}
           0.5 1 _ _ eq_refl H1 H2 eq_refl).
Defined.

(** Without a lyrics URL, or when the load fails (rejected request, status
    not OK, or unreadable body: every outcome but an OK response with its
    body text), [loadLyrics] leaves the parser cleared and, if the page has
    the lyric element, shows the placeholder. *)
Theorem loadLyrics_without_lyrics
    (a : AudioPlayer) (lyricsUrl : option jsstring) (fetched : fetch_outcome) :
  lyricsUrl = None \/ lyricsUrl = Some [] \/ fetch_failed fetched = true ->
  lyricsParser (loadLyrics a lyricsUrl fetched) = new_parser /\
  currentLyric (loadLyrics a lyricsUrl fetched)
  = match currentLyric a with Some _ => Some filler | None => None end.
Proof.
  assert (Hshow : forall b,
    lyricsParser b = new_parser -> currentLyric b = currentLyric a ->
    lyricsParser (show_filler b) = new_parser /\
    currentLyric (show_filler b)
    = match currentLyric a with Some _ => Some filler | None => None end).
  { intros b Hp Hc. unfold show_filler. rewrite <- Hc.
    destruct (currentLyric b) eqn:E; cbn; rewrite ?E; auto. }
  intros H.
  destruct lyricsUrl as [[|c url]|]; try (apply Hshow; reflexivity).
  destruct H as [H|[H|Hf]]; try discriminate.
  unfold loadLyrics.
  destruct fetched as [|[] status statusText [|s]]; try discriminate;
    cbn [loadFromURL negb]; apply Hshow; reflexivity.
Qed.

Lemma loadLyrics_without_lyrics_witness :
  currentLyric
    (loadLyrics
       {| lyricsParser := parseLRC new_parser sample_track;
          currentLyric := Some (lit "Hello"); isPlaying := true;
          audio := Some 2%float |}
       (Some (lit "a.lrc")) (Response true 200 (lit "OK") BodyRejected))
  = Some filler /\
  lyricsParser
    (loadLyrics
       {| lyricsParser := parseLRC new_parser sample_track;
          currentLyric := Some (lit "Hello"); isPlaying := true;
          audio := Some 2%float |}
       (Some (lit "a.lrc")) FetchRejected)
  = new_parser.
Proof.
  split.
  - apply (loadLyrics_without_lyrics
             {| lyricsParser := parseLRC new_parser sample_track;
                currentLyric := Some (lit "Hello"); isPlaying := true;
                audio := Some 2%float |}
             (Some (lit "a.lrc")) (Response true 200 (lit "OK") BodyRejected)).
    right. right. reflexivity.
  - apply (loadLyrics_without_lyrics
             {| lyricsParser := parseLRC new_parser sample_track;
                currentLyric := Some (lit "Hello"); isPlaying := true;
                audio := Some 2%float |}
             (Some (lit "a.lrc")) FetchRejected).
    right. right. reflexivity.
Defined.

(** ** The order of the recorded times *)

Module ValueOrder.

(** A positive finite value, scaled by a power of two that clears the
    exponent, is an integer. *)
Lemma SF2Q_scaled m e k q :
  SF2Q (S754_finite false m e) = Some q -> 0 <= k -> 0 <= e + k ->
  (q * inject_Z (2 ^ k) == inject_Z (Zpos m * 2 ^ (e + k)))%Q.
Proof.
  intros Hq Hk Hek. cbn [SF2Q] in Hq. injection Hq as <-.
  destruct e as [|p|p].
  - rewrite Z.pow_0_r, Z.mul_1_r, Z.add_0_l.
    unfold Qeq, Qmult, inject_Z. cbn [Qnum Qden]. lia.
  - unfold Qeq, Qmult, inject_Z. cbn [Qnum Qden].
    rewrite Z.pow_add_r by lia. lia.
  - unfold Qeq, Qmult, inject_Z. cbn [Qnum Qden].
    rewrite Pos2Z.inj_mul, Pos2Z.inj_pow.
    replace k with ((Z.neg p + k) + Zpos p) at 1 by lia.
    rewrite Z.pow_add_r by lia. lia.
Qed.

Lemma SF2Q_positive m e q : SF2Q (S754_finite false m e) = Some q -> (0 < q)%Q.
Proof.
  cbn [SF2Q]. intros [= <-]. destruct e as [|p|p]; unfold Qlt, inject_Z; cbn [Qnum Qden].
  - lia.
  - assert (0 < 2 ^ Zpos p) by (apply Z.pow_pos_nonneg; lia). nia.
  - lia.
Qed.

(** On non-negative finite numbers [<] agrees with the order of the values. *)
Lemma ltb_of_value x y qx qy :
  good x = true -> good y = true ->
  number_value x = Some qx -> number_value y = Some qy ->
  (qx < qy)%Q -> PrimFloat.ltb x y = true.
Proof.
  intros Gx Gy Hx Hy Hlt.
  apply good_spec in Gx as [Vx Nx]. apply good_spec in Gy as [Vy Ny].
  rewrite FloatAxioms.ltb_spec. unfold number_value in Hx, Hy.
  destruct (Prim2SF x) as [[]|[]| |[] mx ex]; try discriminate;
    destruct (Prim2SF y) as [[]|[]| |[] my ey]; try discriminate.
  - cbn in Hx, Hy. injection Hx as <-. injection Hy as <-. discriminate.
  - reflexivity.
  - exfalso. cbn [SF2Q] in Hy. injection Hy as <-.
    apply SF2Q_positive in Hx. apply (Qlt_irrefl 0%Q). eapply Qlt_trans; eassumption.
  - unfold SFltb. cbn [SFcompare].
    pose proof (aligned_compare mx ex my ey Vx Vy) as Hc.
    change (Pos.compare_cont Eq mx my) with (mx ?= my)%positive.
    rewrite <- Hc, !shl_align_value by lia.
    set (z := Z.min ex ey). set (k := Z.max 0 (- z)).
    pose proof (SF2Q_scaled mx ex k qx Hx ltac:(lia) ltac:(lia)) as Ex.
    pose proof (SF2Q_scaled my ey k qy Hy ltac:(lia) ltac:(lia)) as Ey.
    assert (Hk : (0 < inject_Z (2 ^ k))%Q).
    { assert (0 < 2 ^ k) by (apply Z.pow_pos_nonneg; lia).
      unfold Qlt, inject_Z. cbn [Qnum Qden]. lia. }
    apply (Qmult_lt_compat_r _ _ _ Hk) in Hlt. rewrite Ex, Ey in Hlt.
    rewrite <- Zlt_Qlt in Hlt.
    replace (ex + k) with ((ex - z) + (z + k)) in Hlt by lia.
    replace (ey + k) with ((ey - z) + (z + k)) in Hlt by lia.
    rewrite (Z.pow_add_r 2 (ex - z) (z + k)), (Z.pow_add_r 2 (ey - z) (z + k)),
      !Z.mul_assoc in Hlt by lia.
    assert (Hp : 0 < 2 ^ (z + k)) by (apply Z.pow_pos_nonneg; lia).
    apply Z.mul_lt_mono_pos_r in Hlt; [|assumption].
    apply Z.compare_lt_iff in Hlt. rewrite Hlt. reflexivity.
Qed.

Lemma exact_seconds_value a b c d e f :
  (exact_seconds a b c d e f ==
   (6000 * (10 * digit_value a + digit_value b)
    + 100 * (10 * digit_value c + digit_value d)
    + (10 * digit_value e + digit_value f)) # 100)%Q.
Proof. apply exact_seconds_centis. Qed.

End ValueOrder.

Import ValueOrder.

(** Of two tags the one that denotes fewer seconds has the smaller recorded
    time: rounding never merges or swaps the times of tags with different
    values, so the lines are ordered as the tags are. *)
Theorem tag_times_ordered_as_tags (a b c d e f a' b' c' d' e' f' : char) :
  digits6 a b c d e f -> digits6 a' b' c' d' e' f' ->
  (exact_seconds a b c d e f < exact_seconds a' b' c' d' e' f')%Q ->
  PrimFloat.ltb (parseTimeToSeconds [a; b] [c; d] [e; f])
                (parseTimeToSeconds [a'; b'] [c'; d'] [e'; f']) = true.
Proof.
  intros Hd Hd' Hlt.
  destruct (parseTimeToSeconds_value _ _ _ _ _ _ Hd) as (q & Hq & Hle).
  destruct (parseTimeToSeconds_value _ _ _ _ _ _ Hd') as (q' & Hq' & Hle').
  apply (ltb_of_value _ _ q q'); auto using parseTimeToSeconds_good.
  apply Qabs_Qle_condition in Hle as [_ Hle].
  apply Qabs_Qle_condition in Hle' as [Hle' _].
  rewrite exact_seconds_value in Hle, Hle'.
  rewrite (exact_seconds_value a b c d e f),
    (exact_seconds_value a' b' c' d' e' f') in Hlt.
  revert Hle Hle' Hlt.
  generalize (6000 * (10 * digit_value a + digit_value b)
              + 100 * (10 * digit_value c + digit_value d)
              + (10 * digit_value e + digit_value f)).
  generalize (6000 * (10 * digit_value a' + digit_value b')
              + 100 * (10 * digit_value c' + digit_value d')
              + (10 * digit_value e' + digit_value f')).
  intros N' N. destruct q as [qn qd], q' as [qn' qd'].
  unfold Qle, Qlt, Qminus, Qplus, Qopp. cbn [Qnum Qden].
  rewrite !Pos2Z.inj_mul. intros Hle Hle' Hlt.
  assert (HN : N + 1 <= N') by lia.
  pose proof (Pos2Z.is_pos qd) as Hd0. pose proof (Pos2Z.is_pos qd') as Hd0'.
  pose proof (Z.mul_le_mono_nonneg_r _ _ (Z.pos qd') ltac:(lia) Hle) as H1.
  pose proof (Z.mul_le_mono_nonneg_r _ _ (Z.pos qd) ltac:(lia) Hle') as H2.
  assert (H3 : (N + 1) * (Z.pos qd * Z.pos qd') <= N' * (Z.pos qd * Z.pos qd'))
    by (apply Z.mul_le_mono_nonneg_r; lia).
  assert (HP : 0 < Z.pos qd * Z.pos qd') by lia.
  nia.
Qed.

Lemma tag_times_ordered_as_tags_witness :
  PrimFloat.ltb (parseTimeToSeconds (lit "00") (lit "59") (lit "99"))
                (parseTimeToSeconds (lit "01") (lit "00") (lit "00")) = true.
Proof.
  apply (tag_times_ordered_as_tags 48 48 53 57 57 57 48 49 48 48 48 48)%N;
    [repeat split | repeat split | vm_compute; reflexivity].
Defined.
